(** * Elite Player Tracker: the stats normalization and ranking core of server.js

    A shallow embedding of [getNBASeason], [calcEPT] and the body of
    [getSeasonStats] (server.js), and the properties of the specification
    proved about them.

    - A JavaScript Number is an IEEE 754 binary64 value: Rocq's primitive
      [float], with its primitive [+], [-], [*], [/] and comparisons.
    - Integers that never leave the integer range (the calendar year, the month
      index, array positions) are [Z] and [nat].
    - The object [idx] used as a map from header names to positions is a
      [gmap string nat] of its own properties.
    - A row of the table is an array of cells or [null]; a cell is a number,
      a string or [null].
    - [Array.prototype.sort] is the stable sort that ECMAScript specifies;
      where the language leaves the order to the engine, the sort of V8 for
      short arrays is modelled beside it.
    - A thrown exception is the [Throw] case of a completion. *)

From Stdlib Require Import ZArith Floats String Ascii List Lia Bool.
From Stdlib Require Import DecimalString Sorted.
From stdpp Require Import gmap strings list.

Open Scope string_scope.

(** ** Language primitives used by the source *)

Module JS.

(** A value that a cell of a parsed JSON row can hold, or that reading an
    array out of range gives.  Booleans, nested arrays and objects do not
    occur as cells of the tables the source reads, and are not modelled. *)
Inductive value :=
  | Undefined
  | Null
  | Num (x : float)
  | Str (s : string).

(** What a throw carries.  The source throws nothing itself: every throw
    comes from the language, as a TypeError.  MalformedInputError is the kind
    that the specification names; the source declares no such error and
    nothing constructs it. *)
Inductive error := TypeError | MalformedInputError.

Inductive completion (A : Type) :=
  | Return (a : A)
  | Throw (e : error).
Arguments Return {A} a.
Arguments Throw {A} e.

(** [a ?? b] *)
Definition nullish (a b : value) : value :=
  match a with
  | Undefined | Null => b
  | _ => a
  end.

(** [r[i]] on an array [r], where the key [i] is a position or [undefined]
    (an array has no property named "undefined"). *)
Definition get (r : list value) (i : option nat) : value :=
  match i with
  | Some n => default Undefined (r !! n)
  | None => Undefined
  end.

(** ToBoolean, the test of [c ? a : b]. *)
Definition ToBoolean (v : value) : bool :=
  match v with
  | Undefined | Null => false
  | Num x => negb (is_zero x || is_nan x)
  | Str s => negb (String.eqb s "")
  end.

Section Coercion.

(** StringToNumber of ECMAScript, a primitive of the language: the numeric
    operators apply it to a string operand. *)
Variable StringToNumber : string -> float.

(** ToNumber, applied by [*] and [/] to each operand. *)
Definition ToNumber (v : value) : float :=
  match v with
  | Undefined => nan
  | Null => 0%float
  | Num x => x
  | Str s => StringToNumber s
  end.

End Coercion.

(** *** [+x.toFixed(1)]

    [Number.prototype.toFixed] with one fraction digit, read back by unary [+].
    A value that is not finite, or of magnitude at least 10^21, is printed by
    ToString and read back unchanged.  Otherwise the digits are those of the
    integer [n] for which [n / 10] is closest to the exact magnitude of [x],
    the larger [n] on a tie; zero prints as "0.0" whatever its sign.  Reading
    the digits back gives the binary64 value nearest to [n / 10]. *)

(** The integer [n] for the magnitude [m * 2^e]: the floor of
    [m * 2^e * 10 + 1/2]. *)
Definition toFixed1_digits (m : positive) (e : Z) : Z :=
  match e with
  | Zneg p => (2 * (Zpos m * 10) + 2 ^ Zpos p) / 2 ^ (Zpos p + 1)
  | _ => Zpos m * 10 * 2 ^ e
  end%Z.

(** The binary64 value nearest to [n / 10], with sign [s]. *)
Definition tenths (s : bool) (n : positive) : float :=
  SF2Prim (SF64div (S754_finite s n 0) (S754_finite false 10 0)).

Definition round1 (x : float) : float :=
  match Prim2SF x with
  | S754_zero _ => 0
  | S754_finite s m e =>
      if (1e21 <=? abs x)%float then x
      else match toFixed1_digits m e with
           | Zpos n => tenths s n
           | _ => if s then (-0)%float else 0%float
           end
  | _ => x
  end.

(** *** [String(n)] for an integer [n] and [padStart] *)

(** The decimal digits of [n], after a minus sign when [n] is negative. *)
Definition String_of_int (n : Z) : string :=
  NilZero.string_of_int (Z.to_int n).

Fixpoint repeat_char (c : ascii) (n : nat) : string :=
  match n with
  | O => EmptyString
  | S k => String c (repeat_char c k)
  end.

(** [s.padStart(n, c)] for a one-character filler [c]. *)
Definition padStart (n : nat) (c : ascii) (s : string) : string :=
  repeat_char c (n - String.length s) ++ s.

(** *** [Array.prototype.sort]

    ECMAScript (2019 and later; the source needs a later edition for [??])
    specifies a stable sort: [x] is placed before [y] when
    [SortCompare x y < 0], and elements that compare equal keep their order.
    When the comparator is consistent this fixes the result, and every
    conforming engine returns the list computed here by stable insertion.
    When it is not, the language leaves the order to the engine; the list
    computed here is then one permitted result, and [V8.sort] below is the
    order of the engine that runs the source. *)
Section Sort.

Context {A : Type}.
Variable comparefn : A -> A -> float.

(** A comparator result that is NaN counts as +0. *)
Definition SortCompare (x y : A) : float :=
  let v := comparefn x y in
  if is_nan v then 0%float else v.

Fixpoint sort_insert (x : A) (l : list A) : list A :=
  match l with
  | [] => [x]
  | y :: t =>
      if (SortCompare y x <? 0)%float then y :: sort_insert x t
      else x :: y :: t
  end.

Definition sort (l : list A) : list A := foldr sort_insert [] l.

End Sort.

(** *** The sort of the engine

    Node runs V8, whose [Array.prototype.sort] (array-sort.tq) treats an
    array of fewer than 64 elements as a single run: it takes the longest
    run at the start of the array, reversing it when it is strictly
    descending, and inserts each later element by binary search.  With a
    consistent comparator this gives the list of [sort]; otherwise it is the
    order that Node leaves the array in.  Longer arrays are cut into such
    runs, which are then merged; that part is not modelled. *)
Module V8.

Section Sort.

Context {A : Type}.
Variable comparefn : A -> A -> float.

(** The loop of [CountAndMakeRun]: how many elements of [rest] continue the
    run that ends with [previous]. *)
Fixpoint run_rest (isDescending : bool) (previous : A) (rest : list A) : nat :=
  match rest with
  | [] => 0
  | current :: t =>
      let order := SortCompare comparefn current previous in
      if (if isDescending then negb (order <? 0)%float else (order <? 0)%float)
      then 0
      else S (run_rest isDescending current t)
  end.

(** [CountAndMakeRun]: the run at the start of [a], made ascending, and the
    elements after it. *)
Definition CountAndMakeRun (a : list A) : list A * list A :=
  match a with
  | elementHigh :: elementLow :: t =>
      let isDescending :=
        (SortCompare comparefn elementLow elementHigh <? 0)%float in
      let runLength := 2 + run_rest isDescending elementLow t in
      (if isDescending then rev (take runLength a) else take runLength a,
       drop runLength a)
  | _ => (a, [])
  end.

(** The binary search of [BinaryInsertionSort] for the place of [pivot] in
    [a] between [left] and [right]; the interval shrinks at each of the
    [steps]. *)
Fixpoint find_left (steps : nat) (pivot : A) (a : list A) (left right : nat)
    : nat :=
  match steps with
  | O => left
  | S steps' =>
      if Nat.ltb left right then
        let mid := left + Nat.div2 (right - left) in
        match a !! mid with
        | Some x =>
            if (SortCompare comparefn pivot x <? 0)%float
            then find_left steps' pivot a left mid
            else find_left steps' pivot a (S mid) right
        | None => left
        end
      else left
  end.

(** One round of [BinaryInsertionSort]: [pivot] is placed at the position
    found, the elements from there on slide over. *)
Definition insert_pivot (sorted : list A) (pivot : A) : list A :=
  let left := find_left (S (length sorted)) pivot sorted 0 (length sorted) in
  take left sorted ++ pivot :: drop left sorted.

Definition sort (a : list A) : list A :=
  let '(run, rest) := CountAndMakeRun a in
  fold_left insert_pivot rest run.

End Sort.

End V8.

(** [a.slice(0, n)] *)
Definition slice0 {A : Type} (n : nat) (a : list A) : list A := take n a.

End JS.

Import JS.

(** ** The season resolver *)

(** What the source reads from [new Date()]. *)
Record Date := { getFullYear : Z; getMonth : Z }.

Definition getNBASeason (now : Date) : string :=
  let year := getFullYear now in
  let month := getMonth now in
  let startYear := if (9 <=? month)%Z then year else (year - 1)%Z in
  let endYear := Z.rem (startYear + 1) 100 in
  String_of_int startYear ++ "-" ++ padStart 2 "0"%char (String_of_int endYear).

(** ** The header index *)

(** The names of the properties that a plain object inherits from
    [Object.prototype]. *)
Definition Object_prototype_names : list string :=
  ["constructor"; "__defineGetter__"; "__defineSetter__"; "hasOwnProperty";
   "__lookupGetter__"; "__lookupSetter__"; "isPrototypeOf";
   "propertyIsEnumerable"; "toString"; "valueOf"; "__proto__";
   "toLocaleString"].

(** [headers.forEach((h, i) => (idx[h] = i))] on the plain object [idx]: the
    entries are written from left to right, starting from position [i].  The
    map holds the own properties of [idx].  An assignment to the name
    "__proto__" calls the setter that [Object.prototype] defines, which
    ignores a number: it stores nothing.  Every other name gets an own
    property.  Reading [idx] at a name that has no own property gives
    [undefined] unless [Object.prototype] defines the name; the source reads
    [idx] only at its eighteen field names, none of which it defines. *)
Fixpoint index_headers (headers : list string) (i : nat)
    (idx : gmap string nat) : gmap string nat :=
  match headers with
  | [] => idx
  | h :: t =>
      index_headers t (S i)
        (if String.eqb h "__proto__" then idx else <[h := i]> idx)
  end.

(** An element of [rowSet]: an array of cells, or [null].  Reading a
    property of [null] throws; an element that is neither reads like the
    array of its indexed properties. *)
Inductive row :=
  | Row (cells : list value)
  | NullRow.

(** The payload that [fetchNBA] resolves to, as far as the source reads it:
    [data.resultSet.headers] and [data.resultSet.rowSet], each of which may
    be absent ([None]: missing, or not an array, so that it has no [forEach]
    or [map] to call).  A header is the property key that [idx[h]] makes of
    it: the string itself. *)
Record ResultSet := {
  headers : option (list string);
  rowSet : option (list row)
}.

Record Payload := { resultSet : option ResultSet }.

(** The object built for each row. *)
Record Player := {
  name : value; team : value;
  gp : value; pts : value; reb : value; ast : value; stl : value;
  blk : value; tov : value;
  fgm : value; fga : value; fg3m : value; fg3a : value;
  ftm : value; fta : value;
  fgPct : float; ftPct : float; tpPct : float;
  ppg : float; rpg : float; apg : float; spg : float; bpg : float;
  topg : float;
  ept : float
}.

(** The object that [getSeasonStats] returns. *)
Record Stats := {
  players : list Player;
  season : string;
  updatedAt : Date
}.

Section Core.

Variable StringToNumber : string -> float.

Notation "'#' v" := (ToNumber StringToNumber v) (at level 1, format "'#' v").

(** ** The composite score *)

Definition calcEPT (pts reb ast stl blk tov : value) : float :=
  round1 (#pts * 1.5 + #reb * 1.5 + #ast * 1.5 + #stl * 3 + #blk * 3
          - #tov * 1.5)%float.

(** ** Normalization and ranking *)

(** [made / attempted], or 0 when [attempted] is falsy. *)
Definition ratio (made attempted : value) : value :=
  if ToBoolean attempted then Num (#made / #attempted) else Num 0.

(** [gp ? +(total / gp).toFixed(1) : 0] *)
Definition per_game (total gp : value) : float :=
  if ToBoolean gp then round1 (#total / #gp) else 0%float.

(** The callback of [rows.map], on a row that is an array. *)
Definition player_of_row (idx : gmap string nat) (r : list value) : Player :=
  let gp := nullish (get r (idx !! "GP")) (Num 0) in
  let pts := nullish (get r (idx !! "PTS")) (Num 0) in
  let reb := nullish (get r (idx !! "REB")) (Num 0) in
  let ast := nullish (get r (idx !! "AST")) (Num 0) in
  let stl := nullish (get r (idx !! "STL")) (Num 0) in
  let blk := nullish (get r (idx !! "BLK")) (Num 0) in
  let tov := nullish (get r (idx !! "TOV")) (Num 0) in
  let fgm := nullish (get r (idx !! "FGM")) (Num 0) in
  let fga := nullish (get r (idx !! "FGA")) (Num 0) in
  let fg3m := nullish (get r (idx !! "FG3M")) (Num 0) in
  let fg3a := nullish (get r (idx !! "FG3A")) (Num 0) in
  let ftm := nullish (get r (idx !! "FTM")) (Num 0) in
  let fta := nullish (get r (idx !! "FTA")) (Num 0) in
  let fgPct := nullish (get r (idx !! "FG_PCT")) (ratio fgm fga) in
  let ftPct := nullish (get r (idx !! "FT_PCT")) (ratio ftm fta) in
  let tpPct := nullish (get r (idx !! "FG3_PCT")) (ratio fg3m fg3a) in
  {| name := get r (idx !! "PLAYER");
     team := get r (idx !! "TEAM");
     gp := gp; pts := pts; reb := reb; ast := ast; stl := stl;
     blk := blk; tov := tov;
     fgm := fgm; fga := fga; fg3m := fg3m; fg3a := fg3a;
     ftm := ftm; fta := fta;
     fgPct := round1 (#fgPct * 100);
     ftPct := round1 (#ftPct * 100);
     tpPct := round1 (#tpPct * 100);
     ppg := per_game pts gp;
     rpg := per_game reb gp;
     apg := per_game ast gp;
     spg := per_game stl gp;
     bpg := per_game blk gp;
     topg := per_game tov gp;
     ept := calcEPT pts reb ast stl blk tov |}.

(** The comparator [(a, b) => b.ept - a.ept]. *)
Definition by_ept (a b : Player) : float := (ept b - ept a)%float.

(** The callback of [rows.map] on any element: its first read,
    [r[idx["GP"]]], throws a TypeError when the row is [null]. *)
Definition project_row (idx : gmap string nat) (r : row) : completion Player :=
  match r with
  | Row cells => Return (player_of_row idx cells)
  | NullRow => Throw TypeError
  end.

(** [rows.map(f)]: the first throw of [f] ends it. *)
Fixpoint map_rows (f : row -> completion Player) (rows : list row)
    : completion (list Player) :=
  match rows with
  | [] => Return []
  | r :: t =>
      match f r with
      | Throw e => Throw e
      | Return p =>
          match map_rows f t with
          | Throw e => Throw e
          | Return ps => Return (p :: ps)
          end
      end
  end.

(** [getSeasonStats], from the payload [data] that the fetch resolved to,
    with [Array_sort] for [Array.prototype.sort].  [now] is the clock read on
    entry and [later] the clock read when the result is built.  Reading a
    property of [undefined], and calling [forEach] or [map] on it, throw a
    TypeError. *)
Definition getSeasonStats_with
    (Array_sort : (Player -> Player -> float) -> list Player -> list Player)
    (now : Date) (data : Payload) (later : Date) : completion Stats :=
  let season := getNBASeason now in
  match resultSet data with
  | None => Throw TypeError
  | Some rs =>
      match headers rs with
      | None => Throw TypeError
      | Some hs =>
          let idx := index_headers hs 0 ∅ in
          match rowSet rs with
          | None => Throw TypeError
          | Some rows =>
              match map_rows (project_row idx) rows with
              | Throw e => Throw e
              | Return players =>
                  let ps := Array_sort by_ept players in
                  Return {| players := slice0 25 ps;
                            season := season;
                            updatedAt := later |}
              end
          end
      end
  end.

(** [getSeasonStats] with the sort as ECMAScript determines it. *)
Definition getSeasonStats : Date -> Payload -> Date -> completion Stats :=
  getSeasonStats_with sort.

End Core.

(** ** The upstream fetch *)

(** The state of a promise.  A rejection carries the error whose [message]
    the server reports: one built by the source or handed over by the
    transport, or the exception that a throw in an async function becomes. *)
Inductive reason :=
  | Failure (message : string)
  | Exception (e : error).

Inductive promise (A : Type) :=
  | Pending
  | Fulfilled (a : A)
  | Rejected (r : reason).
Arguments Pending {A}.
Arguments Fulfilled {A} a.
Arguments Rejected {A} r.

(** [resolve] and [reject] settle a promise that is pending and leave a
    settled one as it is. *)
Definition settle {A : Type} (outcome p : promise A) : promise A :=
  match p with
  | Pending => outcome
  | _ => p
  end.

(** What the transport can deliver to the listeners that [fetchNBA]
    registers: a chunk of the response body (as the text that [data += chunk]
    appends), the end of the body, an error of the request, or its timeout. *)
Inductive event :=
  | OnData (chunk : string)
  | OnEnd
  | OnError (message : string)
  | OnTimeout.

(** The variable [data] and the promise that [fetchNBA] returned. *)
Record Fetch := { received : string; outcome : promise Payload }.

Section Fetch.

(** [JSON.parse], read through the two properties the source looks at:
    [None] when it throws a SyntaxError. *)
Variable JSON_parse : string -> option Payload.

(** One listener call. *)
Definition deliver (f : Fetch) (ev : event) : Fetch :=
  match ev with
  | OnData chunk =>
      {| received := received f ++ chunk; outcome := outcome f |}
  | OnEnd =>
      {| received := received f;
         outcome :=
           settle match JSON_parse (received f) with
                  | Some v => Fulfilled v
                  | None => Rejected (Failure "Failed to parse NBA response")
                  end (outcome f) |}
  | OnError message =>
      {| received := received f;
         outcome := settle (Rejected (Failure message)) (outcome f) |}
  | OnTimeout =>
      {| received := received f;
         outcome := settle (Rejected (Failure "Request timed out")) (outcome f) |}
  end.

(** The promise of [fetchNBA] after the transport has delivered [events]. *)
Definition fetchNBA (events : list event) : promise Payload :=
  outcome (fold_left deliver events {| received := ""; outcome := Pending |}).

End Fetch.

(** ** The server *)

(** What [res.end] is given: a string or the bytes of a file, or the JSON
    text of a value. *)
Inductive body :=
  | Sent (s : string)
  | JSON_stringify_stats (st : Stats)
  | JSON_stringify_error (r : reason).

(** The arguments of [res.writeHead] and [res.end]. *)
Record Response := {
  statusCode : nat;
  header : list (string * string);
  sent : body
}.

(** The object [types] of [serveFile]. *)
Definition types : gmap string string :=
  <[".html" := "text/html"]>
    (<[".css" := "text/css"]>
       (<[".js" := "application/javascript"]>
          (<[".json" := "application/json"]> ∅))).

Section Server.

(** [path.extname] and [path.join] of the platform, the directory of the
    script, and the file system as [fs.readFile] reads it ([None]: it reports
    an error).  [path.extname] returns the empty string or a string that
    starts with a dot, so [types[ext]] never reaches a property that
    [Object.prototype] defines. *)
Variable path_extname : string -> string.
Variable path_join : string -> string -> string.
Variable dirname : string.
Variable readFile : string -> option string.

Definition serveFile (filePath : string) : Response :=
  let ext := path_extname filePath in
  match readFile filePath with
  | None => {| statusCode := 404; header := []; sent := Sent "Not found" |}
  | Some data =>
      {| statusCode := 200;
         header :=
           [("Content-Type", default "text/plain" (types !! ext));
            ("Cache-Control", "no-store, no-cache, must-revalidate");
            ("Pragma", "no-cache")];
         sent := Sent data |}
  end.

(** The request listener, for a request of target [url].  [stats] is the
    promise of [getSeasonStats], which only the stats route calls; that route
    answers when the promise settles. *)
Definition server (url : string) (stats : promise Stats) : option Response :=
  if String.eqb url "/api/stats" then
    match stats with
    | Fulfilled st =>
        Some {| statusCode := 200;
                header := [("Content-Type", "application/json");
                           ("Access-Control-Allow-Origin", "*")];
                sent := JSON_stringify_stats st |}
    | Rejected r =>
        Some {| statusCode := 500;
                header := [("Content-Type", "application/json")];
                sent := JSON_stringify_error r |}
    | Pending => None
    end
  else if String.eqb url "/" || String.eqb url "/index.html" then
    Some (serveFile (path_join dirname "index.html"))
  else
    Some (serveFile (path_join dirname url)).

End Server.

Section Async.

Variable StringToNumber : string -> float.

(** [Array.prototype.sort] of the engine that runs the server. *)
Variable Array_sort :
  (Player -> Player -> float) -> list Player -> list Player.


End Async.

(** ** Vocabulary of the specification *)

(** A well-formed RawTable as a payload: both containers are present. *)
Definition table (hs : list string) (rows : list (list value)) : Payload :=
  {| resultSet := Some {| headers := Some hs; rowSet := Some (map Row rows) |} |}.




(** Every number is greater than or equal to the next one. *)
Fixpoint non_increasing (l : list float) : bool :=
  match l with
  | a :: (b :: _) as t => (b <=? a)%float && non_increasing t
  | _ => true
  end.

(** A number from 0 to 99 written with exactly two decimal digits. *)
Definition digit (d : Z) : ascii := ascii_of_nat (48 + Z.to_nat d).

Definition two_digits (k : Z) : string :=
  String (digit (k / 10)) (String (digit (k mod 10)) EmptyString).

(** The season start year the specification gives for a date: the current
    year from October (month index 9) on, the previous year before. *)
Definition season_start (now : Date) : Z :=
  if (9 <=? getMonth now)%Z then getFullYear now else (getFullYear now - 1)%Z.

(** Field-goal, free-throw and three-point percentage alike: [stored] is the
    percentage kept for a row whose explicit percentage cell is [explicit]
    and whose made and attempted totals are [made] and [attempted]. *)
Definition percentage_rule (StringToNumber : string -> float)
    (explicit made attempted : value) (stored : float) : Prop :=
  match explicit with
  | Undefined | Null =>
      (ToBoolean attempted = true ->
       stored = round1 (ToNumber StringToNumber made
                        / ToNumber StringToNumber attempted * 100)%float) /\
      (ToBoolean attempted = false -> stored = 0%float) /\
      (forall a, attempted = Num a -> (a =? 0)%float = true -> stored = 0%float)
  | v => stored = round1 (ToNumber StringToNumber v * 100)%float
  end.

(** ** Inputs of the worked examples *)

(** A reading of strings for the worked examples: their tables hold no string
    in a column that is read as a number, so it is never consulted. *)
Definition unread : string -> float := fun _ => nan.

Definition november_2025 : Date := {| getFullYear := 2025; getMonth := 10 |}.

Definition stat_headers : list string :=
  ["PLAYER"; "TEAM"; "GP"; "PTS"; "REB"; "AST"; "STL"; "BLK"; "TOV"].

Definition row_A : list value :=
  [Str "A"; Str "X"; Num 2; Num 20; Num 10; Num 6; Num 4; Num 2; Num 4].

(** The totals of [row_A] over five games instead of two. *)
Definition row_B : list value :=
  [Str "B"; Str "Y"; Num 5; Num 20; Num 10; Num 6; Num 4; Num 2; Num 4].

(** A player who has not played. *)
Definition row_C : list value :=
  [Str "C"; Str "Z"; Num 0; Num 0; Num 0; Num 0; Num 0; Num 0; Num 0].

Definition stat_idx : gmap string nat := index_headers stat_headers 0 ∅.



(** Field goals 5 of 11, free throws 3 of 4 with an explicit percentage of
    one half, and no three-point attempt. *)
Definition shooting_headers : list string :=
  ["FGM"; "FGA"; "FT_PCT"; "FTM"; "FTA"; "FG3M"; "FG3A"].

Definition shooting_row : list value :=
  [Num 5; Num 11; Num 0.5; Num 3; Num 4; Num 2; Num 0].

Definition shooting_idx : gmap string nat := index_headers shooting_headers 0 ∅.


(** * Facts about binary64 arithmetic

    The sign of a difference [x - y] of two binary64 values agrees with their
    order.  The proofs go through the specification [SpecFloat] of the
    primitive operations: a finite value is [m * 2^e] with a canonical
    mantissa, and a subtraction rounds the exact difference of the aligned
    mantissas. *)

Module Binary64.

Local Open Scope Z_scope.

(** The result is not a zero and carries the sign [s]. *)
Definition signed (s : bool) (x : spec_float) : Prop :=
  match x with
  | S754_finite s' _ _ | S754_infinity s' => s' = s
  | _ => False
  end.

Lemma fexp_eq e : fexp prec emax e = Z.max (e - 53) (-1074).
Proof. reflexivity. Qed.

Lemma digits2_bounds p :
  2 ^ (Zpos (digits2_pos p) - 1) <= Zpos p < 2 ^ Zpos (digits2_pos p).
Proof.
  induction p as [p IH|p IH|]; simpl digits2_pos;
    rewrite ?Pos2Z.inj_succ.
  - replace (Z.succ (Zpos (digits2_pos p)) - 1) with (Z.succ (Zpos (digits2_pos p) - 1)) by lia.
    rewrite !Z.pow_succ_r by lia. lia.
  - replace (Z.succ (Zpos (digits2_pos p)) - 1) with (Z.succ (Zpos (digits2_pos p) - 1)) by lia.
    rewrite !Z.pow_succ_r by lia. lia.
  - simpl. lia.
Qed.

Lemma iter_xO m d : Zpos (Pos.iter xO m d) = Zpos m * 2 ^ Zpos d.
Proof.
  induction d as [|d IH] using Pos.peano_ind.
  - simpl. lia.
  - rewrite Pos.iter_succ, Pos2Z.inj_succ, Z.pow_succ_r by lia.
    rewrite (Pos2Z.inj_xO (Pos.iter xO m d)), IH. lia.
Qed.

Lemma shl_align_fst m e e' :
  e' <= e -> Zpos (fst (shl_align m e e')) = Zpos m * 2 ^ (e - e').
Proof.
  intros He. unfold shl_align.
  destruct (e' - e) as [|d|d] eqn:Hd; simpl fst.
  - replace (e - e') with 0 by lia. simpl. lia.
  - lia.
  - rewrite iter_xO. replace (e - e') with (Zpos d) by lia. reflexivity.
Qed.

Lemma shl_align_snd m e e' :
  -1074 <= e -> -1074 <= e' -> -1074 <= snd (shl_align m e e').
Proof.
  intros. unfold shl_align. destruct (e' - e); simpl; lia.
Qed.

Lemma shr_1_m mrs : 0 <= shr_m mrs -> shr_m (shr_1 mrs) = shr_m mrs / 2.
Proof.
  destruct mrs as [m r s]. simpl shr_m. intros Hm.
  rewrite <- Z.div2_div.
  destruct m as [|[p|p|]|p]; try reflexivity; lia.
Qed.

Lemma pow2_xO p : 2 ^ Zpos p~0 = 2 ^ Zpos p * 2 ^ Zpos p.
Proof.
  rewrite (Pos2Z.inj_xO p). apply Z.pow_twice_r.
Qed.

Lemma pow2_xI p : 2 ^ Zpos p~1 = 2 * (2 ^ Zpos p * 2 ^ Zpos p).
Proof.
  rewrite (Pos2Z.inj_xI p), Z.pow_add_r by lia.
  rewrite Z.pow_twice_r. simpl (2 ^ 1). lia.
Qed.

Lemma iter_shr_1_m p : forall mrs,
  0 <= shr_m mrs -> shr_m (SpecFloat.iter_pos shr_1 p mrs) = shr_m mrs / 2 ^ Zpos p.
Proof.
  induction p as [p IH|p IH|]; intros mrs Hm; simpl SpecFloat.iter_pos.
  - assert (Hp : 0 < 2 ^ Zpos p) by (apply Z.pow_pos_nonneg; lia).
    assert (H1 : 0 <= shr_m (shr_1 mrs)).
    { rewrite shr_1_m by assumption. apply Z.div_pos; lia. }
    assert (H2 : 0 <= shr_m (SpecFloat.iter_pos shr_1 p (shr_1 mrs))).
    { rewrite IH by assumption. apply Z.div_pos; lia. }
    rewrite IH, IH, shr_1_m by assumption.
    rewrite !Z.div_div by lia. rewrite pow2_xI. reflexivity.
  - assert (Hp : 0 < 2 ^ Zpos p) by (apply Z.pow_pos_nonneg; lia).
    assert (H2 : 0 <= shr_m (SpecFloat.iter_pos shr_1 p mrs)).
    { rewrite IH by assumption. apply Z.div_pos; lia. }
    rewrite IH, IH by assumption.
    rewrite !Z.div_div by lia. rewrite pow2_xO. reflexivity.
  - rewrite shr_1_m by assumption. reflexivity.
Qed.

Lemma shr_record_of_loc_m m l : shr_m (shr_record_of_loc m l) = m.
Proof. destruct l as [|[]]; reflexivity. Qed.

Lemma shr_fexp_pos m e l :
  0 < m -> -1074 <= e ->
  0 < shr_m (fst (shr_fexp prec emax m e l)) /\
  -1074 <= snd (shr_fexp prec emax m e l).
Proof.
  intros Hm He. unfold shr_fexp, shr. rewrite fexp_eq.
  destruct m as [|p|p]; try lia. simpl Zdigits2.
  pose proof (digits2_bounds p) as [Hlo _].
  set (d := Zpos (digits2_pos p)) in *.
  destruct (Z.max (d + e - 53) (-1074) - e) as [|n|n] eqn:Hn; simpl fst; simpl snd;
    rewrite ?shr_record_of_loc_m; try (split; lia).
  rewrite iter_shr_1_m by (rewrite shr_record_of_loc_m; lia).
  rewrite shr_record_of_loc_m. split; [|lia].
  apply Z.div_str_pos. split; [apply Z.pow_pos_nonneg; lia|].
  apply Z.le_trans with (2 ^ (d - 1)); [|assumption].
  apply Z.pow_le_mono_r; lia.
Qed.

Lemma round_nearest_even_ge m l : m <= round_nearest_even m l.
Proof. destruct l as [|[]]; simpl; try lia. destruct (Z.even m); lia. Qed.

Lemma binary_round_aux_pos s m e l :
  0 < m -> -1074 <= e -> signed s (binary_round_aux prec emax s m e l).
Proof.
  intros Hm He. unfold binary_round_aux.
  pose proof (shr_fexp_pos m e l Hm He) as [H1 H2].
  destruct (shr_fexp prec emax m e l) as [mrs' e']. simpl fst in *; simpl snd in *.
  pose proof (round_nearest_even_ge (shr_m mrs') (loc_of_shr_record mrs')) as Hr.
  set (m1 := round_nearest_even (shr_m mrs') (loc_of_shr_record mrs')) in *.
  assert (Hm1 : 0 < m1) by lia.
  pose proof (shr_fexp_pos m1 e' loc_Exact Hm1 H2) as [H3 H4].
  destruct (shr_fexp prec emax m1 e' loc_Exact) as [mrs'' e'']. simpl fst in *; simpl snd in *.
  destruct (shr_m mrs'') as [|q|q]; try lia.
  destruct (e'' <=? emax - prec); reflexivity.
Qed.

Lemma binary_round_pos s m e :
  -1074 <= e -> signed s (binary_round prec emax s m e).
Proof.
  intros He. unfold binary_round.
  pose proof (shl_align_snd m e (fexp prec emax (Zpos (digits2_pos m) + e)) He) as Hs.
  destruct (shl_align m e _) as [mz ez]. simpl snd in Hs.
  apply binary_round_aux_pos; [lia|]. apply Hs. rewrite fexp_eq. lia.
Qed.

Lemma binary_round_aux_not_neg m e l :
  SFltb (binary_round_aux prec emax false m e l) (S754_zero false) = false.
Proof.
  unfold binary_round_aux.
  destruct (shr_fexp prec emax m e l) as [mrs' e'].
  destruct (shr_fexp prec emax _ e' loc_Exact) as [mrs'' e''].
  destruct (shr_m mrs''); try reflexivity.
  destruct (e'' <=? emax - prec); reflexivity.
Qed.

Lemma binary_normalize_lt0 D e :
  -1074 <= e ->
  SFltb (binary_normalize prec emax D e false) (S754_zero false) = true <-> D < 0.
Proof.
  intros He. destruct D as [|p|p]; simpl binary_normalize.
  - split; [discriminate|lia].
  - unfold binary_round. destruct (shl_align _ _ _) as [mz ez].
    rewrite binary_round_aux_not_neg. split; [discriminate|lia].
  - pose proof (binary_round_pos true p e He) as Hs.
    destruct (binary_round prec emax true p e) as [| s | |s m' e']; simpl in Hs; try contradiction; subst s;
      split; try reflexivity; lia.
Qed.

Lemma canonical_bounds m e :
  canonical_mantissa prec emax m e = true ->
  -1074 <= e /\ Zpos m < 2 ^ 53 /\ (-1074 < e -> 2 ^ 52 <= Zpos m).
Proof.
  unfold canonical_mantissa. rewrite fexp_eq. intros H%Z.eqb_eq.
  pose proof (digits2_bounds m) as [Hlo Hhi].
  set (d := Zpos (digits2_pos m)) in *.
  split; [lia|]. split.
  - apply Z.lt_le_trans with (2 ^ d); [assumption|]. apply Z.pow_le_mono_r; lia.
  - intros He. replace 52 with (d - 1) by lia. assumption.
Qed.

Lemma magnitude_compare m1 e1 m2 e2 :
  canonical_mantissa prec emax m1 e1 = true ->
  canonical_mantissa prec emax m2 e2 = true ->
  match e1 ?= e2 with
  | Lt => Lt
  | Gt => Gt
  | Eq => Pos.compare_cont Eq m1 m2
  end =
  (Zpos (fst (shl_align m1 e1 (Z.min e1 e2))) ?= Zpos (fst (shl_align m2 e2 (Z.min e1 e2)))).
Proof.
  intros [Ha1 [Hb1 Hc1]]%canonical_bounds [Ha2 [Hb2 Hc2]]%canonical_bounds.
  rewrite !shl_align_fst by lia.
  destruct (Z.compare_spec e1 e2) as [He|He|He].
  - subst e2. rewrite Z.min_id, Z.sub_diag. simpl Z.pow. rewrite !Z.mul_1_r. reflexivity.
  - rewrite Z.min_l by lia. rewrite Z.sub_diag. simpl (2 ^ 0). rewrite Z.mul_1_r.
    symmetry. apply Z.compare_lt_iff.
    assert (2 ^ 1 <= 2 ^ (e2 - e1)) by (apply Z.pow_le_mono_r; lia).
    specialize (Hc2 ltac:(lia)). nia.
  - rewrite Z.min_r by lia. rewrite Z.sub_diag. simpl (2 ^ 0). rewrite Z.mul_1_r.
    symmetry. apply Z.compare_gt_iff.
    assert (2 ^ 1 <= 2 ^ (e1 - e2)) by (apply Z.pow_le_mono_r; lia).
    specialize (Hc1 ltac:(lia)). nia.
Qed.

Lemma SFsub_lt0 X Y :
  valid_binary X = true -> valid_binary Y = true ->
  SFltb (SF64sub X Y) (S754_zero false) = true <-> SFcompare X Y = Some Lt.
Proof.
  intros HX HY.
  destruct X as [sx|sx| |sx mx ex], Y as [sy|sy| |sy my ey];
    try (try destruct sx; try destruct sy; unfold SF64sub, SFltb; simpl; split; congruence).
  unfold valid_binary, bounded in HX, HY.
  apply andb_true_iff in HX as [HX _]. apply andb_true_iff in HY as [HY _].
  unfold SF64sub, SFsub.
  pose proof (canonical_bounds _ _ HX) as [Hex _].
  pose proof (canonical_bounds _ _ HY) as [Hey _].
  rewrite binary_normalize_lt0 by lia.
  pose proof (magnitude_compare _ _ _ _ HX HY) as Hc.
  assert (HA : 0 < Zpos (fst (shl_align mx ex (Z.min ex ey)))) by lia.
  assert (HB : 0 < Zpos (fst (shl_align my ey (Z.min ex ey)))) by lia.
  revert Hc HA HB.
  generalize (Zpos (fst (shl_align mx ex (Z.min ex ey))))
             (Zpos (fst (shl_align my ey (Z.min ex ey)))).
  intros A B Hc HA HB.
  destruct sx, sy; unfold cond_Zopp, SFcompare.
  - replace (match ex ?= ey with
             | Eq => CompOpp (Pos.compare_cont Eq mx my)
             | Lt => Gt
             | Gt => Lt
             end) with (CompOpp (A ?= B))
      by (rewrite <- Hc; destruct (ex ?= ey); reflexivity).
    destruct (Z.compare_spec A B); simpl; split; try congruence; lia.
  - split; [reflexivity|lia].
  - split; [lia|discriminate].
  - rewrite Hc.
    destruct (Z.compare_spec A B); simpl; split; try congruence; lia.
Qed.

Lemma SFcompare_antisym X Y :
  SFcompare Y X = option_map CompOpp (SFcompare X Y).
Proof.
  destruct X as [[]|[]| |[] m1 e1], Y as [[]|[]| |[] m2 e2]; try reflexivity;
    simpl; rewrite (Z.compare_antisym e1 e2);
    destruct (e1 ?= e2); simpl; try reflexivity;
    rewrite (Pos.compare_cont_antisym m1 m2 Eq); simpl;
    rewrite ?CompOpp_involutive; reflexivity.
Qed.

Lemma SFcompare_refl X : X <> S754_nan -> SFcompare X X = Some Eq.
Proof.
  destruct X as [[]|[]| |[] m e]; try reflexivity; try congruence; intros _; simpl;
    rewrite Z.compare_refl, Pos.compare_cont_refl; reflexivity.
Qed.

Lemma SFcompare_Eq_trans X Y V :
  SFcompare X V = Some Eq -> SFcompare Y V = Some Eq -> SFcompare X Y = Some Eq.
Proof.
  destruct X as [[]|[]| |[] m1 e1], V as [[]|[]| |[] m e], Y as [[]|[]| |[] m2 e2];
    simpl; try congruence;
    destruct (Z.compare_spec e1 e) as [->| |]; try congruence;
    destruct (Z.compare_spec e2 e) as [->| |]; try congruence;
    rewrite Z.compare_refl;
    intros [= H1] [= H2]; f_equal;
    try (apply (f_equal CompOpp) in H1, H2; rewrite CompOpp_involutive in H1, H2; simpl in H1, H2);
    apply Pos.compare_eq in H1, H2; subst; rewrite Pos.compare_cont_refl; reflexivity.
Qed.


(** ** The same facts on primitive floats *)

Local Open Scope float_scope.

Lemma Prim2SF_0 : Prim2SF 0 = S754_zero false.
Proof. reflexivity. Qed.

Lemma is_nan_true x : is_nan x = true -> Prim2SF x = S754_nan.
Proof.
  unfold is_nan. rewrite FloatAxioms.eqb_spec. unfold SFeqb. intros H.
  destruct (Prim2SF x) eqn:E; try reflexivity;
    rewrite SFcompare_refl in H by discriminate; discriminate.
Qed.

Lemma is_nan_false x : is_nan x = false -> Prim2SF x <> S754_nan.
Proof.
  unfold is_nan. rewrite FloatAxioms.eqb_spec. intros H E. rewrite E in H. discriminate.
Qed.

Lemma sub_ltb_0 x y :
  (x - y <? 0) = true <-> SFcompare (Prim2SF x) (Prim2SF y) = Some Lt.
Proof.
  rewrite FloatAxioms.ltb_spec, FloatAxioms.sub_spec, Prim2SF_0.
  apply SFsub_lt0; apply Prim2SF_valid.
Qed.

(** A negative difference: [x] is below [y]. *)
Lemma sub_neg_leb x y : (x - y <? 0) = true -> (x <=? y) = true.
Proof.
  intros H%sub_ltb_0. rewrite FloatAxioms.leb_spec. unfold SFleb. rewrite H. reflexivity.
Qed.

(** A difference of two numbers that is not negative: [y] is not above [x]. *)
Lemma sub_not_neg_leb x y :
  is_nan x = false -> is_nan y = false ->
  (x - y <? 0) = false -> (y <=? x) = true.
Proof.
  intros Hx%is_nan_false Hy%is_nan_false H.
  rewrite FloatAxioms.leb_spec. unfold SFleb. rewrite SFcompare_antisym.
  destruct (SFcompare (Prim2SF x) (Prim2SF y)) as [[]|] eqn:E; try reflexivity.
  - apply sub_ltb_0 in E. congruence.
  - destruct (Prim2SF x), (Prim2SF y); try discriminate; congruence.
Qed.

(** Two numbers equal to a third have a difference that is not negative. *)
Lemma eqb_sub_not_neg x y v :
  (x =? v) = true -> (y =? v) = true -> (x - y <? 0) = false.
Proof.
  rewrite !FloatAxioms.eqb_spec. unfold SFeqb. intros Hx Hy.
  assert (E : SFcompare (Prim2SF x) (Prim2SF y) = Some Eq).
  { apply SFcompare_Eq_trans with (Prim2SF v).
    - destruct (SFcompare (Prim2SF x) (Prim2SF v)) as [[]|]; congruence.
    - destruct (SFcompare (Prim2SF y) (Prim2SF v)) as [[]|]; congruence. }
  destruct (x - y <? 0) eqn:H; [|reflexivity].
  apply sub_ltb_0 in H. congruence.
Qed.

Lemma nan_not_neg v : is_nan v = true -> (v <? 0) = false.
Proof.
  intros H%is_nan_true. rewrite FloatAxioms.ltb_spec, H. reflexivity.
Qed.

(** A positive number is truthy. *)
Lemma pos_not_zero_nor_nan g :
  (0 <? g) = true -> is_zero g = false /\ is_nan g = false.
Proof.
  unfold is_zero, is_nan. rewrite FloatAxioms.ltb_spec, !FloatAxioms.eqb_spec, Prim2SF_0.
  unfold SFltb, SFeqb. intros H.
  destruct (Prim2SF g) as [[]|[]| |[] m e]; try discriminate; split; try reflexivity;
    rewrite SFcompare_refl by discriminate; reflexivity.
Qed.

End Binary64.

(** * Facts about the stable sort *)

Section SortFacts.

Context {A : Type} (comparefn : A -> A -> float).

Lemma SortCompare_ltb x y :
  (SortCompare comparefn x y <? 0)%float = (comparefn x y <? 0)%float.
Proof.
  unfold SortCompare. destruct (is_nan (comparefn x y)) eqn:E; [|reflexivity].
  rewrite (Binary64.nan_not_neg _ E). reflexivity.
Qed.

Lemma sort_insert_length x l :
  length (sort_insert comparefn x l) = S (length l).
Proof.
  induction l as [|y t IH]; simpl; [reflexivity|].
  destruct (SortCompare comparefn y x <? 0)%float; simpl; congruence.
Qed.

Lemma sort_length l : length (sort comparefn l) = length l.
Proof.
  induction l as [|x l IH]; simpl; [reflexivity|].
  rewrite sort_insert_length. congruence.
Qed.

Lemma sort_insert_Forall (P : A -> Prop) x l :
  P x -> Forall P l -> Forall P (sort_insert comparefn x l).
Proof.
  intros Hx Hl. induction Hl as [|y t Hy Ht IH]; simpl.
  - repeat constructor. assumption.
  - destruct (SortCompare comparefn y x <? 0)%float; repeat constructor; assumption.
Qed.

Lemma sort_Forall (P : A -> Prop) l :
  Forall P l -> Forall P (sort comparefn l).
Proof.
  induction 1 as [|x l Hx Hl IH]; simpl; [constructor|].
  apply sort_insert_Forall; assumption.
Qed.

Section Order.

(** [R x y]: [x] may stand immediately before [y].  [ok] holds of the
    elements on which the comparator decides the order. *)
Variable R : A -> A -> Prop.
Variable ok : A -> Prop.
Hypothesis before : forall x y,
  (comparefn y x <? 0)%float = true -> R y x.
Hypothesis after : forall x y,
  ok x -> ok y -> (comparefn y x <? 0)%float = false -> R x y.

Lemma sort_insert_HdRel z x l :
  R z x -> HdRel R z l -> HdRel R z (sort_insert comparefn x l).
Proof.
  intros Hzx Hl. destruct Hl as [|y t Hzy]; simpl.
  - constructor. assumption.
  - destruct (SortCompare comparefn y x <? 0)%float; constructor; assumption.
Qed.

Lemma sort_insert_Sorted x l :
  ok x -> Forall ok l -> Sorted R l -> Sorted R (sort_insert comparefn x l).
Proof.
  intros Hx Hok Hs. induction Hs as [|y t Ht IH Hhd]; simpl.
  - repeat constructor.
  - apply Forall_cons in Hok as [Hy Hok].
    destruct (SortCompare comparefn y x <? 0)%float eqn:E;
      rewrite SortCompare_ltb in E.
    + constructor; [apply IH; assumption|].
      apply sort_insert_HdRel; [|assumption]. apply before; assumption.
    + constructor; [constructor; assumption|].
      constructor. apply after; assumption.
Qed.

Lemma sort_Sorted l : Forall ok l -> Sorted R (sort comparefn l).
Proof.
  induction 1 as [|x l Hx Hl IH]; simpl; [constructor|].
  apply sort_insert_Sorted; [assumption| |assumption].
  apply sort_Forall; assumption.
Qed.

End Order.

Section Stable.

(** [P] selects elements none of which sorts before another. *)
Variable P : A -> bool.
Hypothesis ties : forall x y,
  P x = true -> P y = true -> (comparefn y x <? 0)%float = false.

Lemma sort_insert_filter x l :
  List.filter P (sort_insert comparefn x l) = List.filter P (x :: l).
Proof.
  induction l as [|y t IH]; [reflexivity|].
  simpl sort_insert.
  destruct (SortCompare comparefn y x <? 0)%float eqn:E; [|reflexivity].
  rewrite SortCompare_ltb in E.
  simpl in *. rewrite IH.
  destruct (P x) eqn:Px, (P y) eqn:Py; try reflexivity.
  rewrite ties in E by assumption. discriminate.
Qed.

Lemma sort_filter l : List.filter P (sort comparefn l) = List.filter P l.
Proof.
  induction l as [|x l IH]; [reflexivity|].
  simpl sort. rewrite sort_insert_filter. simpl. rewrite IH. reflexivity.
Qed.

End Stable.

End SortFacts.

Lemma Sorted_take {A : Type} (R : A -> A -> Prop) n (l : list A) :
  Sorted R l -> Sorted R (take n l).
Proof.
  intros Hs. revert n. induction Hs as [|x l Hl IH Hhd]; intros [|n]; simpl;
    try constructor.
  - apply IH.
  - destruct Hhd as [|y t Hxy]; destruct n; simpl; constructor. assumption.
Qed.

Lemma filter_take_prefix {A : Type} (P : A -> bool) n (l : list A) :
  List.filter P (take n l) `prefix_of` List.filter P l.
Proof.
  revert n. induction l as [|x l IH]; intros [|n]; simpl;
    try apply prefix_nil.
  destruct (P x); [apply prefix_cons|]; apply IH.
Qed.

Lemma Sorted_non_increasing (l : list Player) :
  Sorted (fun a b => (ept b <=? ept a)%float = true) l ->
  non_increasing (map ept l) = true.
Proof.
  induction 1 as [|a l Hl IH Hhd]; [reflexivity|].
  destruct Hhd as [|b t Hab]; [reflexivity|].
  simpl map in *. simpl non_increasing. rewrite Hab. exact IH.
Qed.

(** * Facts about the primitives *)

Lemma round1_0x100 : round1 (0 * 100) = 0%float.
Proof. reflexivity. Qed.

Lemma padStart_two_digits (k : Z) :
  (0 <= k < 100)%Z -> padStart 2 "0"%char (String_of_int k) = two_digits k.
Proof.
  intros Hk.
  assert (H : forallb (fun n => String.eqb
                (padStart 2 "0"%char (String_of_int (Z.of_nat n)))
                (two_digits (Z.of_nat n))) (seq 0 100) = true)
    by (vm_compute; reflexivity).
  rewrite forallb_forall in H.
  specialize (H (Z.to_nat k)). rewrite Z2Nat.id in H by lia.
  apply String.eqb_eq, H, in_seq. lia.
Qed.

Lemma ToBoolean_zero g : (g =? 0)%float = true -> ToBoolean (Num g) = false.
Proof.
  intros H. unfold ToBoolean, is_zero. change PrimFloat.zero with 0%float.
  rewrite H. reflexivity.
Qed.

Lemma ToBoolean_pos g : (0 <? g)%float = true -> ToBoolean (Num g) = true.
Proof.
  intros [Hz Hn]%Binary64.pos_not_zero_nor_nan.
  unfold ToBoolean. rewrite Hz, Hn. reflexivity.
Qed.

(** * Facts about the header index *)

Lemma index_headers_other (hs : list string) (h : string) :
  forall i (idx : gmap string nat),
  (forall j, hs !! j <> Some h) ->
  index_headers hs i idx !! h = idx !! h.
Proof.
  induction hs as [|h' t IH]; intros i idx Hno; simpl; [reflexivity|].
  rewrite IH by (intros j; apply (Hno (S j))).
  destruct (String.eqb h' "__proto__"); [reflexivity|].
  apply lookup_insert_ne. intros ->. apply (Hno O). reflexivity.
Qed.

(** The name "__proto__" never becomes an own property. *)
Lemma index_headers_proto (hs : list string) :
  forall i (idx : gmap string nat),
  index_headers hs i idx !! "__proto__" = idx !! "__proto__".
Proof.
  induction hs as [|h' t IH]; intros i idx; simpl; [reflexivity|].
  rewrite IH. destruct (String.eqb_spec h' "__proto__") as [_|Hne];
    [reflexivity|].
  apply lookup_insert_ne. exact Hne.
Qed.

Lemma index_headers_last (hs : list string) (h : string) :
  forall n i (idx : gmap string nat),
  h <> "__proto__" ->
  hs !! n = Some h ->
  (forall j, n < j -> hs !! j <> Some h) ->
  index_headers hs i idx !! h = Some (i + n).
Proof.
  induction hs as [|h' t IH]; intros n i idx Hh Hn Hlast; [discriminate|].
  destruct n as [|n]; simpl in *.
  - injection Hn as ->.
    rewrite index_headers_other by (intros j; apply (Hlast (S j)); lia).
    apply String.eqb_neq in Hh. rewrite Hh.
    rewrite lookup_insert_eq. f_equal. lia.
  - rewrite (IH n) by (try assumption; intros j Hj; apply (Hlast (S j)); lia).
    f_equal. lia.
Qed.

(** * Facts about the rows *)


Section Rows.

Variable StringToNumber : string -> float.

(** Rows that are all arrays are all projected. *)
Lemma map_rows_Row idx (rows : list (list value)) :
  map_rows (project_row StringToNumber idx) (map Row rows) =
  Return (map (player_of_row StringToNumber idx) rows).
Proof.
  induction rows as [|r t IH]; simpl; [reflexivity|]. rewrite IH. reflexivity.
Qed.


(** Whatever the projection throws is a TypeError. *)
Lemma map_rows_Throw idx (rows : list row) e :
  map_rows (project_row StringToNumber idx) rows = Throw e -> e = TypeError.
Proof.
  induction rows as [|r t IH]; simpl; [discriminate|].
  destruct r; simpl; [|congruence].
  destruct (map_rows _ t); [discriminate|].
  intros [= <-]. apply IH. reflexivity.
Qed.


Lemma getSeasonStats_with_table Array_sort now hs rows later :
  getSeasonStats_with StringToNumber Array_sort now (table hs rows) later =
  Return {| players :=
              slice0 25 (Array_sort by_ept
                           (map (player_of_row StringToNumber
                                   (index_headers hs 0 ∅)) rows));
            season := getNBASeason now;
            updatedAt := later |}.
Proof.
  unfold getSeasonStats_with, table. simpl. rewrite map_rows_Row. reflexivity.
Qed.



End Rows.

(** * The properties of the specification *)

Section Claims.

Variable StringToNumber : string -> float.

Notation "'#' v" := (ToNumber StringToNumber v) (at level 1, format "'#' v").
Abbreviation getSeasonStats := (getSeasonStats StringToNumber).
Abbreviation player_of_row := (player_of_row StringToNumber).

(** What [getSeasonStats] returns for a well-formed table. *)
Lemma getSeasonStats_table now hs rows later :
  getSeasonStats now (table hs rows) later =
  Return {| players :=
              slice0 25 (sort by_ept
                           (map (player_of_row (index_headers hs 0 ∅)) rows));
            season := getNBASeason now;
            updatedAt := later |}.
Proof. apply getSeasonStats_with_table. Qed.

Ltac ranked :=
  eexists; split; [apply getSeasonStats_table|cbv [players slice0]].

(** C1: every record of the result has
    [ept = round1 (pts*1.5 + reb*1.5 + ast*1.5 + stl*3 + blk*3 - tov*1.5)],
    summed from left to right over the record's season totals; and for the
    headers PLAYER, TEAM, GP, PTS, REB, AST, STL, BLK, TOV and the row
    A, X, 2, 20, 10, 6, 4, 2, 4 the record has ept 66, ppg 10, rpg 5, apg 3,
    spg 2, bpg 1 and topg 2. *)
Theorem ept_formula :
  (forall now hs rows later, exists st,
     getSeasonStats now (table hs rows) later = Return st /\
     Forall (fun p =>
       ept p = round1 (#(pts p) * 1.5 + #(reb p) * 1.5 + #(ast p) * 1.5
                       + #(stl p) * 3 + #(blk p) * 3 - #(tov p) * 1.5)%float)
       (players st)) /\
  (forall now later, exists st,
     getSeasonStats now
       (table ["PLAYER"; "TEAM"; "GP"; "PTS"; "REB"; "AST"; "STL"; "BLK"; "TOV"]
              [[Str "A"; Str "X"; Num 2; Num 20; Num 10; Num 6; Num 4; Num 2;
                Num 4]])
       later = Return st /\
     map (fun p => (ept p, ppg p, rpg p, apg p, spg p, bpg p, topg p))
         (players st)
     = [(66, 10, 5, 3, 2, 1, 2)%float]).
Proof.
  split.
  - intros now hs rows later. ranked. apply Forall_take, sort_Forall.
    apply Forall_forall. intros p [r [-> _]]%list_elem_of_fmap.
    reflexivity.
  - intros now later. eexists. split; [reflexivity|].
    vm_compute. reflexivity.
Qed.


(** C3: for a date of year 0 or later, the season label is the start year,
    a dash, and [(startYear + 1) mod 100] written with two digits, where the
    start year is the current year from October on and the previous year
    before; November 2025, March 2026 and September 2026 give "2025-26",
    October 2026 gives "2026-27", and the start year 2099 gives the end
    label "00". *)
Theorem season_label :
  (forall now, (0 <= getFullYear now)%Z ->
     getNBASeason now =
     String_of_int (season_start now) ++ "-"
       ++ two_digits ((season_start now + 1) mod 100)) /\
  getNBASeason {| getFullYear := 2025; getMonth := 10 |} = "2025-26" /\
  getNBASeason {| getFullYear := 2026; getMonth := 2 |} = "2025-26" /\
  getNBASeason {| getFullYear := 2026; getMonth := 8 |} = "2025-26" /\
  getNBASeason {| getFullYear := 2026; getMonth := 9 |} = "2026-27" /\
  getNBASeason {| getFullYear := 2099; getMonth := 9 |} = "2099-00" /\
  getNBASeason {| getFullYear := 2100; getMonth := 0 |} = "2099-00".
Proof.
  split; [|repeat split; reflexivity].
  intros now Hy. unfold getNBASeason. fold (season_start now).
  assert (Hs : (0 <= season_start now + 1)%Z).
  { unfold season_start. destruct (9 <=? getMonth now)%Z; lia. }
  rewrite Z.rem_mod_nonneg by lia.
  rewrite padStart_two_digits by (apply Z.mod_pos_bound; lia).
  reflexivity.
Qed.

(** C4, as amended: when no projected record has a NaN ept, the players of
    the result are sorted non-increasing by ept: each record's ept is greater
    than or equal to the next record's. *)
Theorem ranking_sorted now hs rows later :
  Forall (fun p => is_nan (ept p) = false)
         (map (player_of_row (index_headers hs 0 ∅)) rows) ->
  exists st,
    getSeasonStats now (table hs rows) later = Return st /\
    non_increasing (map ept (players st)) = true.
Proof.
  intros Hok. ranked.
  apply Sorted_non_increasing, Sorted_take.
  apply sort_Sorted with (ok := fun p => is_nan (ept p) = false);
    [| |assumption].
  - intros x y. unfold by_ept. apply Binary64.sub_neg_leb.
  - intros x y Hx Hy. unfold by_ept. apply Binary64.sub_not_neg_leb; assumption.
Qed.

(** C5: for a well-formed table of N rows the result holds exactly
    [min N 25] records, the first 25 of the sorted sequence; with at most 25
    rows these are all the projected records, none added. *)
Theorem ranking_length now hs rows later :
  exists st,
    getSeasonStats now (table hs rows) later = Return st /\
    length (players st) = Nat.min (length rows) 25 /\
    players st =
      take 25 (sort by_ept (map (player_of_row (index_headers hs 0 ∅)) rows)) /\
    (length rows <= 25 ->
     players st =
       sort by_ept (map (player_of_row (index_headers hs 0 ∅)) rows)).
Proof.
  ranked. split; [|split; [reflexivity|]].
  - rewrite length_take, sort_length, length_map. lia.
  - intros Hn. apply take_ge. rewrite sort_length, length_map. lia.
Qed.

(** C6: for a row whose games played is the number 0 all six per-game rates
    are 0, whatever the totals; when games played is a number above 0 each
    rate is its total divided by games played, rounded to one decimal.  The
    projection is a total function: no division raises. *)
Theorem per_game_rates idx r g :
  let p := player_of_row idx r in
  gp p = Num g ->
  ((g =? 0)%float = true ->
   ppg p = 0%float /\ rpg p = 0%float /\ apg p = 0%float /\
   spg p = 0%float /\ bpg p = 0%float /\ topg p = 0%float) /\
  ((0 <? g)%float = true ->
   ppg p = round1 (#(pts p) / g) /\ rpg p = round1 (#(reb p) / g) /\
   apg p = round1 (#(ast p) / g) /\ spg p = round1 (#(stl p) / g) /\
   bpg p = round1 (#(blk p) / g) /\ topg p = round1 (#(tov p) / g)).
Proof.
  intros p Hg. subst p. simpl in *. unfold per_game. rewrite Hg.
  split; intros H.
  - rewrite (ToBoolean_zero _ H). repeat split.
  - rewrite (ToBoolean_pos _ H). repeat split.
Qed.

(** C7: the six shooting totals of a record are the cells of the row under
    the headers FGM, FGA, FTM, FTA, FG3M and FG3A (0 for a cell that is
    missing or null), and each of the field-goal, free-throw and three-point
    percentages follows [percentage_rule] on the cells of its own three
    columns: an explicit percentage cell that is present and not null is
    used; otherwise the value is made divided by attempted, and 0 when
    attempted is 0; the stored value is the chosen value times 100, rounded
    to one decimal.  A row without a FG_PCT column whose field goals
    attempted is 0 has field-goal percentage 0. *)
Theorem shooting_percentages idx r :
  let p := player_of_row idx r in
  let total h := nullish (get r (idx !! h)) (Num 0) in
  (fgm p = total "FGM" /\ fga p = total "FGA" /\
   ftm p = total "FTM" /\ fta p = total "FTA" /\
   fg3m p = total "FG3M" /\ fg3a p = total "FG3A") /\
  percentage_rule StringToNumber (get r (idx !! "FG_PCT"))
                  (total "FGM") (total "FGA") (fgPct p) /\
  percentage_rule StringToNumber (get r (idx !! "FT_PCT"))
                  (total "FTM") (total "FTA") (ftPct p) /\
  percentage_rule StringToNumber (get r (idx !! "FG3_PCT"))
                  (total "FG3M") (total "FG3A") (tpPct p) /\
  percentage_rule StringToNumber (get r (idx !! "FG_PCT")) (fgm p) (fga p)
                  (fgPct p) /\
  percentage_rule StringToNumber (get r (idx !! "FT_PCT")) (ftm p) (fta p)
                  (ftPct p) /\
  percentage_rule StringToNumber (get r (idx !! "FG3_PCT")) (fg3m p) (fg3a p)
                  (tpPct p) /\
  (idx !! "FG_PCT" = None ->
   forall a, fga p = Num a -> (a =? 0)%float = true -> fgPct p = 0%float) /\
  (idx !! "FG_PCT" = None ->
   forall a, get r (idx !! "FGA") = Num a -> (a =? 0)%float = true ->
   fgPct p = 0%float).
Proof.
  assert (rule : forall explicit made attempted,
    percentage_rule StringToNumber explicit made attempted
      (round1 (#(nullish explicit (ratio StringToNumber made attempted)) * 100))).
  { intros explicit made attempted. unfold percentage_rule, ratio.
    destruct explicit; simpl nullish; try reflexivity;
      (split; [|split]);
      try (intros H; rewrite H; simpl ToNumber; first [reflexivity|apply round1_0x100]);
      intros a -> H; rewrite (ToBoolean_zero _ H); apply round1_0x100. }
  intros p total. subst p total. simpl.
  split; [repeat split|].
  do 6 (split; [apply rule|]).
  split; intros Hnone a Ha H; rewrite Hnone; simpl get; simpl nullish;
    unfold ratio; rewrite Ha; simpl nullish;
    rewrite (ToBoolean_zero _ H); apply round1_0x100.
Qed.

(** C8: two rows with the same points, rebounds, assists, steals, blocks and
    turnovers have the same ept, whatever their games played. *)
Theorem ept_ignores_games_played idx r1 r2 :
  let p1 := player_of_row idx r1 in
  let p2 := player_of_row idx r2 in
  pts p1 = pts p2 -> reb p1 = reb p2 -> ast p1 = ast p2 ->
  stl p1 = stl p2 -> blk p1 = blk p2 -> tov p1 = tov p2 ->
  ept p1 = ept p2.
Proof.
  simpl. intros -> -> -> -> -> ->. reflexivity.
Qed.

(** C9, as amended: when [n] is the last position at which the header
    sequence holds the name [h], and [h] is not "__proto__", the header index
    maps [h] to [n], and a row projection reads the field named [h] from
    column [n] of the row (read as [undefined] when the row is shorter): each
    of the fifteen fields that are cells of the row, and each of the three
    percentages as its explicit column. *)
Theorem last_header_wins (hs : list string) (h : string) (n : nat) :
  h <> "__proto__" ->
  hs !! n = Some h ->
  (forall j, n < j -> hs !! j <> Some h) ->
  let idx := index_headers hs 0 ∅ in
  idx !! h = Some n /\
  forall r : list value,
    let p := player_of_row idx r in
    let cell := default Undefined (r !! n) in
    get r (idx !! h) = cell /\
    (h = "PLAYER" -> name p = cell) /\
    (h = "TEAM" -> team p = cell) /\
    (h = "GP" -> gp p = nullish cell (Num 0)) /\
    (h = "PTS" -> pts p = nullish cell (Num 0)) /\
    (h = "REB" -> reb p = nullish cell (Num 0)) /\
    (h = "AST" -> ast p = nullish cell (Num 0)) /\
    (h = "STL" -> stl p = nullish cell (Num 0)) /\
    (h = "BLK" -> blk p = nullish cell (Num 0)) /\
    (h = "TOV" -> tov p = nullish cell (Num 0)) /\
    (h = "FGM" -> fgm p = nullish cell (Num 0)) /\
    (h = "FGA" -> fga p = nullish cell (Num 0)) /\
    (h = "FG3M" -> fg3m p = nullish cell (Num 0)) /\
    (h = "FG3A" -> fg3a p = nullish cell (Num 0)) /\
    (h = "FTM" -> ftm p = nullish cell (Num 0)) /\
    (h = "FTA" -> fta p = nullish cell (Num 0)) /\
    (h = "FG_PCT" ->
     fgPct p =
     round1 (#(nullish cell (ratio StringToNumber (fgm p) (fga p))) * 100)) /\
    (h = "FT_PCT" ->
     ftPct p =
     round1 (#(nullish cell (ratio StringToNumber (ftm p) (fta p))) * 100)) /\
    (h = "FG3_PCT" ->
     tpPct p =
     round1 (#(nullish cell (ratio StringToNumber (fg3m p) (fg3a p))) * 100)).
Proof.
  intros Hh Hn Hlast idx.
  assert (Hidx : idx !! h = Some n)
    by (unfold idx; rewrite (index_headers_last hs h n); [reflexivity|assumption..]).
  split; [assumption|]. intros r p cell. subst p cell.
  split; [rewrite Hidx; reflexivity|].
  repeat split; intros ->; simpl; rewrite Hidx; reflexivity.
Qed.

(** C10, as amended: when no projected record has a NaN ept, the records of
    the result whose ept equals a given number [v] appear in the order of
    their source rows: they are the first of the projected rows with that
    ept, in input order. *)
Theorem ranking_stable now hs rows later (v : float) :
  Forall (fun p => is_nan (ept p) = false)
         (map (player_of_row (index_headers hs 0 ∅)) rows) ->
  exists st,
    getSeasonStats now (table hs rows) later = Return st /\
    List.filter (fun p => (ept p =? v)%float) (players st)
    `prefix_of`
    List.filter (fun p => (ept p =? v)%float)
                (map (player_of_row (index_headers hs 0 ∅)) rows).
Proof.
  intros _. ranked.
  assert (ties : forall x y : Player,
            (ept x =? v)%float = true -> (ept y =? v)%float = true ->
            (by_ept y x <? 0)%float = false).
  { intros x y Hx Hy. unfold by_ept.
    apply Binary64.eqb_sub_not_neg with v; assumption. }
  rewrite <- (sort_filter by_ept _ ties
                (map (player_of_row (index_headers hs 0 ∅)) rows)).
  apply filter_take_prefix.
Qed.

End Claims.

(** * Worked examples *)

(** A tie on the half goes to the larger digit, of the magnitude. *)
Example round1_ties :
  round1 0.25 = (3 / 10)%float /\ round1 (-0.25) = (-3 / 10)%float /\
  round1 2.5 = 2.5%float /\ round1 (-0) = 0%float /\
  round1 (44 / 3) = (147 / 10)%float /\ round1 nan = nan /\
  round1 infinity = infinity.
Proof. repeat split; reflexivity. Qed.

(** Before year 0 the remainder of [%] is negative. *)
Example season_before_year_0 :
  getNBASeason {| getFullYear := -5; getMonth := 8 |} = "-6--5".
Proof. reflexivity. Qed.

(** B and D tie at 66 and keep their order; A and E tie at 0. *)
Example ranking_with_ties :
  exists st,
    getSeasonStats unread november_2025
      (table ["PLAYER"; "GP"; "PTS"; "TOV"]
         [[Str "A"; Num 2; Num 1; Num 1]; [Str "B"; Num 0; Num 44; Num 0];
          [Str "C"; Num 3; Num 2; Num 0]; [Str "D"; Num 3; Num 44; Num 0];
          [Str "E"; Num 3; Num 1; Num 1]])
      november_2025 = Return st /\
    map (fun p => (name p, ept p)) (players st) =
    [(Str "B", 66); (Str "D", 66); (Str "C", 3); (Str "A", 0); (Str "E", 0)]%float.
Proof. eexists. split; [reflexivity|]. vm_compute. reflexivity. Qed.


Lemma season_label_witness :
  getNBASeason november_2025 = "2025" ++ "-" ++ two_digits 26.
Proof.
  apply (proj1 season_label november_2025). simpl. lia.
Defined.

Lemma ranking_sorted_witness :
  exists st,
    getSeasonStats unread november_2025
      (table stat_headers [row_C; row_A; row_B]) november_2025 = Return st /\
    non_increasing (map ept (players st)) = true.
Proof.
  apply ranking_sorted. repeat constructor.
Defined.

Lemma ranking_length_witness :
  exists st,
    getSeasonStats unread november_2025
      (table stat_headers [row_C; row_A]) november_2025 = Return st /\
    length (players st) = 2 /\
    players st =
      sort by_ept
        (map (player_of_row unread stat_idx)
             [row_C; row_A]).
Proof.
  destruct (ranking_length unread november_2025 stat_headers [row_C; row_A]
              november_2025) as [st [Hst [Hlen [_ Hall]]]].
  exists st. split; [exact Hst|]. split; [exact Hlen|].
  apply Hall. simpl. lia.
Defined.

Lemma per_game_rates_witness :
  ppg (player_of_row unread stat_idx row_C) = 0%float /\
  ppg (player_of_row unread stat_idx row_A) =
    round1 (20 / 2).
Proof.
  split.
  - destruct (per_game_rates unread stat_idx row_C 0
                ltac:(reflexivity)) as [Hidle _].
    apply Hidle. reflexivity.
  - destruct (per_game_rates unread stat_idx row_A 2
                ltac:(reflexivity)) as [_ Hplayed].
    apply Hplayed. reflexivity.
Defined.

Lemma shooting_percentages_witness :
  let p := player_of_row unread shooting_idx shooting_row in
  (fgm p = Num 5 /\ fga p = Num 11 /\ ftm p = Num 3 /\ fta p = Num 4 /\
   fg3m p = Num 2 /\ fg3a p = Num 0) /\
  fgPct p = round1 (5 / 11 * 100) /\
  ftPct p = round1 (0.5 * 100) /\
  tpPct p = 0%float /\
  fgPct (player_of_row unread (index_headers ["FGM"; "FGA"] 0 ∅)
           [Num 3; Num 0]) = 0%float.
Proof.
  destruct (shooting_percentages unread shooting_idx shooting_row)
    as (Htotals & Hfg & Hft & Htp & _).
  split; [exact Htotals|].
  split; [apply Hfg; reflexivity|].
  split; [exact Hft|].
  split; [apply Htp; reflexivity|].
  apply (shooting_percentages unread (index_headers ["FGM"; "FGA"] 0 ∅)
           [Num 3; Num 0]) with (a := 0%float); reflexivity.
Defined.

Lemma ept_ignores_games_played_witness :
  ept (player_of_row unread stat_idx row_A) =
  ept (player_of_row unread stat_idx row_B).
Proof.
  apply ept_ignores_games_played; reflexivity.
Defined.

Lemma last_header_wins_witness :
  index_headers ["PTS"; "GP"; "PTS"] 0 ∅ !! "PTS" = Some 2 /\
  pts (player_of_row unread (index_headers ["PTS"; "GP"; "PTS"] 0 ∅)
         [Num 7; Num 1; Num 9]) = Num 9.
Proof.
  assert (Hh : "PTS" <> "__proto__") by discriminate.
  assert (Hn : ["PTS"; "GP"; "PTS"] !! 2 = Some "PTS") by reflexivity.
  assert (Hlast : forall j, 2 < j -> ["PTS"; "GP"; "PTS"] !! j <> Some "PTS").
  { intros [|[|[|j]]] Hj; try lia. discriminate. }
  destruct (last_header_wins unread ["PTS"; "GP"; "PTS"] "PTS" 2 Hh Hn Hlast)
    as [Hidx Hrow].
  split; [exact Hidx|].
  destruct (Hrow [Num 7; Num 1; Num 9]) as (_ & _ & _ & _ & Hpts & _).
  apply Hpts. reflexivity.
Defined.

Lemma ranking_stable_witness :
  exists st,
    getSeasonStats unread november_2025
      (table stat_headers [row_C; row_A; row_B]) november_2025 = Return st /\
    List.filter (fun p => (ept p =? 66)%float) (players st)
    `prefix_of`
    List.filter (fun p => (ept p =? 66)%float)
                (map (player_of_row unread stat_idx) [row_C; row_A; row_B]).
Proof.
  apply ranking_stable. repeat constructor.
Defined.

(** Two totals of 1.5e308 overflow to infinity in the sum, whose difference is
    NaN: the first record keeps its place ahead of one of ept 1.5. *)
#[local] Set Warnings "-inexact-float".

Lemma ranking_unsorted_with_nan :
  exists st,
    getSeasonStats unread november_2025
      (table ["PTS"; "TOV"] [[Num 1.5e308; Num 1.5e308]; [Num 1; Num 0]])
      november_2025 = Return st /\
    map ept (players st) = [nan; 1.5%float] /\
    non_increasing (map ept (players st)) = false.
Proof.
  eexists. split; [reflexivity|]. split; vm_compute; reflexivity.
Qed.


(** The name "__proto__" at the positions 0 and 2 of the headers: the
    assignments [idx["__proto__"] = 0] and [idx["__proto__"] = 2] store
    nothing, and the index has no entry for the name, not the position 2 of
    its last occurrence. *)
Lemma proto_header_not_indexed :
  ["__proto__"; "GP"; "__proto__"] !! 2 = Some "__proto__" /\
  length ["__proto__"; "GP"; "__proto__"] = 3 /\
  index_headers ["__proto__"; "GP"; "__proto__"] 0 ∅ !! "__proto__" = None /\
  index_headers ["__proto__"; "GP"; "__proto__"] 0 ∅ !! "__proto__" <> Some 2.
Proof. repeat split; discriminate. Qed.

(** Seven rows with the epts 9, 6, 1.5, NaN, 3, 4.5 and 3: F and G are tied
    at 3, F first. *)
Definition tied_headers : list string := ["PLAYER"; "PTS"; "TOV"].

Definition tied_rows : list (list value) :=
  [[Str "P"; Num 6; Num 0]; [Str "Q"; Num 4; Num 0]; [Str "X"; Num 1; Num 0];
   [Str "N"; Num 1.5e308; Num 1.5e308]; [Str "F"; Num 2; Num 0];
   [Str "Y"; Num 3; Num 0]; [Str "G"; Num 2; Num 0]].

(** On the engine, the run at the start is P Q X N F: every comparison with
    N gives NaN, which counts as a tie, so N and F continue the run, and Y
    ends it.  Y is placed by binary search: before X, after Q.  G is
    searched in P Q Y X N F: it goes before X (the middle), after Q, after
    Y, and is placed there without being compared with F.  The result has G
    ahead of F. *)
Lemma ranking_reorders_ties_with_nan :
  exists st,
    getSeasonStats_with unread V8.sort november_2025
      (table tied_headers tied_rows) november_2025 = Return st /\
    map (fun p => (name p, ept p))
        (map (player_of_row unread (index_headers tied_headers 0 ∅))
             tied_rows)
    = [(Str "P", 9); (Str "Q", 6); (Str "X", 1.5); (Str "N", nan);
       (Str "F", 3); (Str "Y", 4.5); (Str "G", 3)]%float /\
    map (fun p => (name p, ept p)) (players st)
    = [(Str "P", 9); (Str "Q", 6); (Str "Y", 4.5); (Str "G", 3);
       (Str "X", 1.5); (Str "N", nan); (Str "F", 3)]%float /\
    map name (List.filter (fun p => (ept p =? 3)%float) (players st))
    = [Str "G"; Str "F"] /\
    map name (List.filter (fun p => (ept p =? 3)%float)
                (map (player_of_row unread (index_headers tied_headers 0 ∅))
                     tied_rows))
    = [Str "F"; Str "G"].
Proof.
  eexists. split; [apply getSeasonStats_with_table|].
  repeat split; vm_compute; reflexivity.
Qed.

(** * Further properties of the code *)

(** ** The order of binary64 numbers is transitive *)

Module FloatOrder.

Local Open Scope Z_scope.

(** The place of a number in the order: its class, then its exponent, then
    its mantissa. *)
Definition rank (X : spec_float) : Z * Z * Z :=
  match X with
  | S754_infinity true => (-2, 0, 0)
  | S754_finite true m e => (-1, - e, - Zpos m)
  | S754_zero _ => (0, 0, 0)
  | S754_finite false m e => (1, e, Zpos m)
  | S754_infinity false => (2, 0, 0)
  | S754_nan => (3, 0, 0)
  end.

Definition lex_le (a b : Z * Z * Z) : Prop :=
  let '(a1, a2, a3) := a in
  let '(b1, b2, b3) := b in
  a1 < b1 \/ (a1 = b1 /\ (a2 < b2 \/ (a2 = b2 /\ a3 <= b3))).

Lemma SFleb_rank X Y :
  SFleb X Y = true <->
  X <> S754_nan /\ Y <> S754_nan /\ lex_le (rank X) (rank Y).
Proof.
  unfold SFleb.
  destruct X as [[]|[]| |[] m1 e1], Y as [[]|[]| |[] m2 e2]; simpl;
    try (split; [intros _; repeat split; try discriminate; lia
                |intros _; reflexivity]);
    try (split; [discriminate|intros (H1 & H2 & H3); try congruence; lia]);
    change (Pos.compare_cont Eq m1 m2) with (Pos.compare m1 m2);
    destruct (Z.compare_spec e1 e2); destruct (Pos.compare_spec m1 m2); simpl;
    (split; [try discriminate; intros _; repeat split; try discriminate; lia
            |intros (H1 & H2 & H3); try reflexivity; lia]).
Qed.

Lemma SFleb_trans X Y Z :
  SFleb X Y = true -> SFleb Y Z = true -> SFleb X Z = true.
Proof.
  rewrite !SFleb_rank. intros (Hx & Hy & H1) (_ & Hz & H2).
  split; [assumption|]. split; [assumption|].
  destruct (rank X) as [[a1 a2] a3], (rank Y) as [[b1 b2] b3],
           (rank Z) as [[c1 c2] c3].
  unfold lex_le in *. lia.
Qed.

Lemma leb_trans (x y z : float) :
  (x <=? y)%float = true -> (y <=? z)%float = true -> (x <=? z)%float = true.
Proof. rewrite !FloatAxioms.leb_spec. apply SFleb_trans. Qed.

End FloatOrder.

(** ** The sort rearranges its input *)

Section SortPermutation.

Context {A : Type} (comparefn : A -> A -> float).

Lemma sort_insert_Permutation x (l : list A) :
  sort_insert comparefn x l ≡ₚ x :: l.
Proof.
  induction l as [|y t IH]; simpl; [reflexivity|].
  destruct (SortCompare comparefn y x <? 0)%float; [|reflexivity].
  rewrite IH. apply Permutation_swap.
Qed.

Lemma sort_Permutation (l : list A) : sort comparefn l ≡ₚ l.
Proof.
  induction l as [|x l IH]; simpl; [reflexivity|].
  rewrite sort_insert_Permutation, IH. reflexivity.
Qed.

End SortPermutation.

(** ** Occurrences of a header name *)

Lemma last_occurrence (hs : list string) (h : string) :
  (forall j, hs !! j <> Some h) \/
  exists n, hs !! n = Some h /\ forall j, n < j -> hs !! j <> Some h.
Proof.
  induction hs as [|h' t IH].
  - left. intros j. rewrite lookup_nil. discriminate.
  - destruct IH as [Hno|(n & Hn & Hlast)].
    + destruct (decide (h' = h)) as [->|Hne].
      * right. exists 0. split; [reflexivity|].
        intros [|j] Hj; [lia|]. apply Hno.
      * left. intros [|j]; simpl; [congruence|apply Hno].
    + right. exists (S n). split; [exact Hn|].
      intros [|j] Hj; [lia|]. apply Hlast. lia.
Qed.

(** ** Lists *)

Lemma filter_all {A : Type} (P : A -> bool) (l : list A) :
  Forall (fun x => P x = true) l -> List.filter P l = l.
Proof.
  induction 1 as [|x l Hx Hl IH]; simpl; [reflexivity|].
  rewrite Hx, IH. reflexivity.
Qed.

Lemma StronglySorted_lookup {A : Type} (R : A -> A -> Prop) (l : list A) :
  StronglySorted R l ->
  forall i j x y, i < j -> l !! i = Some x -> l !! j = Some y -> R x y.
Proof.
  induction 1 as [|a l Hs IH Ha]; intros i j x y Hij Hi Hj.
  - rewrite lookup_nil in Hi. discriminate.
  - destruct j as [|j]; [lia|]. destruct i as [|i]; simpl in *.
    + injection Hi as <-. rewrite Forall_forall in Ha. apply Ha.
      apply list_elem_of_lookup. exists j. assumption.
    + apply (IH i j); [lia|assumption..].
Qed.

(** ** The sort of the engine with a consistent comparator

    Where the comparator is consistent, [V8.sort] returns the list that the
    stable insertion computes: both are sorted and keep tied elements in
    their order, and only one list is. *)

Section EngineSort.

Local Open Scope list_scope.

Context {A : Type} (comparefn : A -> A -> float).

(** [ok] holds of the elements on which the comparator is consistent: there,
    [x] sorts before [y] exactly when [below x y] fails, for a total preorder
    [below]. *)
Variable ok : A -> Prop.
Variable below : A -> A -> bool.
Hypothesis before_below : forall x y,
  ok x -> ok y -> (comparefn x y <? 0)%float = negb (below x y).
Hypothesis below_total : forall x y,
  ok x -> ok y -> below x y = false -> below y x = true.
Hypothesis below_trans : forall x y z,
  ok x -> ok y -> ok z ->
  below x y = true -> below y z = true -> below x z = true.

(** [x] may stand before [y]. *)
Definition may_precede (x y : A) : Prop := below y x = true.

(** [x] and [y] are tied. *)
Definition tied (x y : A) : bool := below x y && below y x.

Lemma below_refl x : ok x -> below x x = true.
Proof.
  intros Hx. destruct (below x x) eqn:E; [reflexivity|].
  rewrite (below_total x x Hx Hx E) in E. discriminate.
Qed.

Lemma Compare_below x y :
  ok x -> ok y -> (SortCompare comparefn x y <? 0)%float = negb (below x y).
Proof.
  intros Hx Hy. rewrite SortCompare_ltb. apply before_below; assumption.
Qed.

Lemma Sorted_may_precede l :
  Forall ok l -> Sorted may_precede l -> StronglySorted may_precede l.
Proof.
  intros Hok Hs. induction Hs as [|a l Hl IH Hhd]; [constructor|].
  apply Forall_cons in Hok as [Ha Hok]. specialize (IH Hok).
  constructor; [exact IH|].
  destruct Hhd as [|b t Hab]; [constructor|].
  apply StronglySorted_inv in IH as [_ Hb].
  apply Forall_cons in Hok as [Hb' Hok].
  constructor; [exact Hab|].
  rewrite Forall_forall in Hb, Hok. apply Forall_forall. intros c Hc.
  unfold may_precede in *. apply (below_trans c b a); auto.
Qed.

(** ** Placing an element in a sorted list *)

Lemma StronglySorted_place (x : A) (l1 l2 : list A) :
  StronglySorted may_precede (l1 ++ l2) ->
  Forall (fun y => may_precede y x) l1 ->
  Forall (fun y => may_precede x y) l2 ->
  StronglySorted may_precede (l1 ++ x :: l2).
Proof.
  induction l1 as [|a l1 IH]; simpl; intros Hs H1 H2.
  - constructor; assumption.
  - apply StronglySorted_inv in Hs as [Hs Ha].
    apply Forall_cons in H1 as [Hax H1].
    constructor; [apply IH; assumption|].
    apply Forall_app in Ha as [Ha1 Ha2].
    apply Forall_app. split; [assumption|]. constructor; assumption.
Qed.

Section Stable.

(** [P] selects elements that are tied with one another. *)
Variable P : A -> bool.
Hypothesis ties : forall x y,
  ok x -> ok y -> P x = true -> P y = true -> below x y = true.

Lemma filter_place_last (x : A) (l1 l2 : list A) :
  ok x -> Forall ok l2 ->
  Forall (fun y => below x y = false) l2 ->
  List.filter P (l1 ++ x :: l2) = List.filter P ((l1 ++ l2) ++ [x]).
Proof.
  intros Hx Hok Hl2. rewrite !List.filter_app. simpl.
  destruct (P x) eqn:Px; [|rewrite app_nil_r; reflexivity].
  assert (E : List.filter P l2 = []).
  { clear -Hx Hok Hl2 Px ties. induction l2 as [|y t IH]; [reflexivity|].
    apply Forall_cons in Hok as [Hy Hok]. apply Forall_cons in Hl2 as [Hxy Hl2].
    simpl. destruct (P y) eqn:Py; [|auto].
    rewrite (ties x y) in Hxy by assumption. discriminate. }
  rewrite E, app_nil_r. reflexivity.
Qed.

Lemma filter_place_first (x : A) (l1 l2 : list A) :
  ok x -> Forall ok l1 ->
  Forall (fun y => below y x = false) l1 ->
  List.filter P (l1 ++ x :: l2) = List.filter P (x :: l1 ++ l2).
Proof.
  intros Hx Hok Hl1. rewrite !List.filter_app. simpl.
  destruct (P x) eqn:Px; [|rewrite List.filter_app; reflexivity].
  assert (E : List.filter P l1 = []).
  { clear -Hx Hok Hl1 Px ties. induction l1 as [|y t IH]; [reflexivity|].
    apply Forall_cons in Hok as [Hy Hok]. apply Forall_cons in Hl1 as [Hxy Hl1].
    simpl. destruct (P y) eqn:Py; [|auto].
    rewrite (ties y x) in Hxy by assumption. discriminate. }
  rewrite E, List.filter_app, E. reflexivity.
Qed.

End Stable.

(** ** The binary search *)

Lemma find_left_spec (pivot : A) (a : list A) :
  ok pivot -> Forall ok a -> StronglySorted may_precede a ->
  forall steps left right,
  right - left < steps -> left <= right <= length a ->
  (forall j x, j < left -> a !! j = Some x -> below pivot x = true) ->
  (forall j x, right <= j -> a !! j = Some x -> below pivot x = false) ->
  let k := V8.find_left comparefn steps pivot a left right in
  k <= length a /\
  (forall j x, j < k -> a !! j = Some x -> below pivot x = true) /\
  (forall j x, k <= j -> a !! j = Some x -> below pivot x = false).
Proof.
  intros Hp Hok Hs.
  induction steps as [|steps IH]; intros left right Hfuel Hlr Hl Hr; [lia|].
  simpl. destruct (Nat.ltb_spec left right) as [Hlt|Hge].
  - set (mid := left + Nat.div2 (right - left)).
    assert (Hmid : left <= mid < right).
    { unfold mid. rewrite Nat.div2_div.
      assert ((right - left) / 2 < right - left) by (apply Nat.div_lt; lia).
      lia. }
    destruct (lookup_lt_is_Some_2 a mid) as [x Hx]; [lia|].
    rewrite Hx.
    assert (Hokx : ok x).
    { rewrite Forall_forall in Hok. apply Hok.
      apply list_elem_of_lookup. exists mid. exact Hx. }
    assert (Hoky : forall j y, a !! j = Some y -> ok y).
    { intros j y Hy. rewrite Forall_forall in Hok. apply Hok.
      apply list_elem_of_lookup. exists j. exact Hy. }
    rewrite Compare_below by assumption.
    destruct (below pivot x) eqn:E; simpl.
    + apply IH; [lia|lia| |assumption].
      intros j y Hj Hy. destruct (Nat.eq_dec j mid) as [->|Hne]; [congruence|].
      destruct (Nat.lt_ge_cases j left) as [Hjl|Hjl]; [eauto|].
      assert (Hyx : may_precede y x)
        by (apply (StronglySorted_lookup _ _ Hs j mid); [lia|assumption..]).
      apply (below_trans pivot x y); eauto.
    + apply IH; [lia|lia|assumption|].
      intros j y Hj Hy. destruct (Nat.eq_dec j mid) as [->|Hne]; [congruence|].
      destruct (Nat.lt_ge_cases j right) as [Hjr|Hjr]; [|eauto].
      assert (Hxy : may_precede x y)
        by (apply (StronglySorted_lookup _ _ Hs mid j); [lia|assumption..]).
      destruct (below pivot y) eqn:Ey; [|reflexivity].
      rewrite (below_trans pivot y x) in E; eauto.
  - assert (left = right) as -> by lia. repeat split; [lia|assumption..].
Qed.

Lemma Forall_take_lookup (Q : A -> Prop) (a : list A) k :
  (forall j x, j < k -> a !! j = Some x -> Q x) -> Forall Q (take k a).
Proof.
  intros H. apply Forall_forall. intros x Hx.
  apply list_elem_of_lookup in Hx as [j Hj].
  apply lookup_take_Some in Hj as [Hj Hlt]. eauto.
Qed.

Lemma Forall_drop_lookup (Q : A -> Prop) (a : list A) k :
  (forall j x, k <= j -> a !! j = Some x -> Q x) -> Forall Q (drop k a).
Proof.
  intros H. apply Forall_forall. intros x Hx.
  apply list_elem_of_lookup in Hx as [j Hj].
  rewrite lookup_drop in Hj. apply (H (k + j)); [lia|assumption].
Qed.

(** One round of the insertion. *)
Lemma insert_pivot_spec (sorted : list A) (pivot : A) :
  ok pivot -> Forall ok sorted -> StronglySorted may_precede sorted ->
  exists l1 l2,
    sorted = l1 ++ l2 /\
    V8.insert_pivot comparefn sorted pivot = l1 ++ pivot :: l2 /\
    Forall (fun y => below pivot y = true) l1 /\
    Forall (fun y => below pivot y = false) l2.
Proof.
  intros Hp Hok Hs. unfold V8.insert_pivot.
  destruct (find_left_spec pivot sorted Hp Hok Hs (S (length sorted)) 0
              (length sorted)) as (Hk & Hl & Hr); [lia|lia| | |].
  - intros j x Hj. lia.
  - intros j x Hj Hx. apply lookup_lt_Some in Hx. lia.
  - set (k := V8.find_left _ _ _ _ _ _) in *.
    exists (take k sorted), (drop k sorted).
    split; [symmetry; apply take_drop|]. split; [reflexivity|].
    split; [apply Forall_take_lookup|apply Forall_drop_lookup]; assumption.
Qed.

Lemma insert_pivot_ok (sorted : list A) (pivot : A) :
  ok pivot -> Forall ok sorted ->
  Forall ok (V8.insert_pivot comparefn sorted pivot).
Proof.
  intros Hp Hok. unfold V8.insert_pivot.
  apply Forall_app. split; [apply Forall_take; assumption|].
  constructor; [assumption|apply Forall_drop; assumption].
Qed.

Lemma insert_pivot_sorted (sorted : list A) (pivot : A) :
  ok pivot -> Forall ok sorted -> StronglySorted may_precede sorted ->
  StronglySorted may_precede (V8.insert_pivot comparefn sorted pivot).
Proof.
  intros Hp Hok Hs.
  destruct (insert_pivot_spec sorted pivot Hp Hok Hs)
    as (l1 & l2 & -> & -> & H1 & H2).
  apply Forall_app in Hok as [Hok1 Hok2].
  apply StronglySorted_place; [assumption|assumption|].
  apply Forall_forall. intros y Hy. unfold may_precede.
  rewrite Forall_forall in H2, Hok2. apply below_total; auto.
Qed.

Lemma insert_pivot_filter (P : A -> bool) (sorted : list A) (pivot : A) :
  (forall x y, ok x -> ok y -> P x = true -> P y = true -> below x y = true) ->
  ok pivot -> Forall ok sorted -> StronglySorted may_precede sorted ->
  List.filter P (V8.insert_pivot comparefn sorted pivot)
  = List.filter P (sorted ++ [pivot]).
Proof.
  intros ties Hp Hok Hs.
  destruct (insert_pivot_spec sorted pivot Hp Hok Hs)
    as (l1 & l2 & -> & -> & H1 & H2).
  apply Forall_app in Hok as [Hok1 Hok2].
  apply filter_place_last; assumption.
Qed.

Lemma fold_insert_pivot (rest : list A) : forall sorted,
  Forall ok rest -> Forall ok sorted -> StronglySorted may_precede sorted ->
  let result := fold_left (V8.insert_pivot comparefn) rest sorted in
  Forall ok result /\ StronglySorted may_precede result /\
  forall P : A -> bool,
    (forall x y,
       ok x -> ok y -> P x = true -> P y = true -> below x y = true) ->
    List.filter P result = List.filter P (sorted ++ rest).
Proof.
  induction rest as [|pivot rest IH]; intros sorted Hrest Hok Hs; simpl.
  - rewrite app_nil_r. auto.
  - apply Forall_cons in Hrest as [Hp Hrest].
    destruct (IH (V8.insert_pivot comparefn sorted pivot)) as (Hok' & Hs' & Hf);
      [assumption|apply insert_pivot_ok; assumption
      |apply insert_pivot_sorted; assumption|].
    split; [assumption|]. split; [assumption|].
    intros P ties. rewrite (Hf P ties), List.filter_app.
    rewrite insert_pivot_filter by assumption.
    rewrite <- List.filter_app, <- app_assoc. reflexivity.
Qed.

(** ** The run at the start *)

(** What holds between an element of the run and the next one. *)
Definition chain (isDescending : bool) (x y : A) : Prop :=
  below y x = negb isDescending.

Lemma run_rest_chain (isDescending : bool) (t : list A) : forall previous,
  ok previous -> Forall ok t ->
  Sorted (chain isDescending)
         (previous :: take (V8.run_rest comparefn isDescending previous t) t).
Proof.
  induction t as [|current t IH]; intros previous Hp Hok; simpl.
  - repeat constructor.
  - apply Forall_cons in Hok as [Hc Hok].
    rewrite Compare_below by assumption.
    destruct isDescending, (below current previous) eqn:E; simpl;
      try (repeat constructor; fail);
      (constructor; [apply IH; assumption|constructor; exact E]).
Qed.

Lemma descending_StronglySorted (l : list A) :
  Forall ok l -> Sorted (chain true) l -> StronglySorted (chain true) l.
Proof.
  intros Hok Hs. induction Hs as [|a l Hl IH Hhd]; [constructor|].
  apply Forall_cons in Hok as [Ha Hok]. specialize (IH Hok).
  constructor; [exact IH|].
  destruct Hhd as [|b t Hab]; [constructor|].
  apply StronglySorted_inv in IH as [_ Hb].
  apply Forall_cons in Hok as [Hb' Hok].
  constructor; [exact Hab|].
  rewrite Forall_forall in Hb, Hok. apply Forall_forall. intros c Hc.
  unfold chain in *. simpl in *.
  destruct (below c a) eqn:E; [|reflexivity].
  assert (Hcb : below c b = true)
    by (apply (below_trans c a b); auto; apply below_total; auto).
  rewrite (Hb c Hc) in Hcb. discriminate.
Qed.

Lemma rev_descending_sorted (l : list A) :
  Forall ok l -> StronglySorted (chain true) l ->
  StronglySorted may_precede (rev l).
Proof.
  intros Hok Hs. induction Hs as [|a l Hl IH Ha]; [constructor|].
  apply Forall_cons in Hok as [Hoka Hok]. simpl.
  apply StronglySorted_place; [rewrite app_nil_r; auto| |constructor].
  apply List.Forall_forall. intros y Hy%in_rev.
  rewrite List.Forall_forall in Ha, Hok. unfold may_precede.
  apply below_total; auto. apply Ha. exact Hy.
Qed.

Lemma rev_descending_filter (P : A -> bool) (l : list A) :
  (forall x y, ok x -> ok y -> P x = true -> P y = true -> below x y = true) ->
  Forall ok l -> StronglySorted (chain true) l ->
  List.filter P (rev l) = List.filter P l.
Proof.
  intros ties Hok Hs. induction Hs as [|a l Hl IH Ha]; [reflexivity|].
  apply Forall_cons in Hok as [Hoka Hok]. simpl.
  rewrite List.filter_app, IH by assumption. simpl.
  destruct (P a) eqn:Pa; [|apply app_nil_r].
  assert (E : List.filter P l = []).
  { clear -ties Hoka Hok Ha Pa. induction l as [|y t IHt]; [reflexivity|].
    apply Forall_cons in Hok as [Hy Hok]. apply Forall_cons in Ha as [Hay Ha].
    simpl. destruct (P y) eqn:Py; [|auto].
    unfold chain in Hay. rewrite (ties y a) in Hay by assumption.
    discriminate. }
  rewrite E. reflexivity.
Qed.

Lemma CountAndMakeRun_spec (a : list A) :
  Forall ok a ->
  let '(run, rest) := V8.CountAndMakeRun comparefn a in
  Forall ok run /\ Forall ok rest /\ StronglySorted may_precede run /\
  forall P : A -> bool,
    (forall x y,
       ok x -> ok y -> P x = true -> P y = true -> below x y = true) ->
    List.filter P (run ++ rest) = List.filter P a.
Proof.
  intros Hok. destruct a as [|elementHigh [|elementLow t]].
  - simpl. repeat split; auto; constructor.
  - simpl. repeat split; auto; repeat constructor.
  - unfold V8.CountAndMakeRun.
    set (isDescending :=
           (SortCompare comparefn elementLow elementHigh <? 0)%float).
    set (n := V8.run_rest comparefn isDescending elementLow t).
    set (a := elementHigh :: elementLow :: t) in *.
    assert (Hrun : Sorted (chain isDescending) (take (2 + n) a)).
    { unfold a. simpl. pose proof Hok as Hok'.
      apply Forall_cons in Hok' as [Hh Hok'].
      apply Forall_cons in Hok' as [Hl Ht].
      constructor; [apply run_rest_chain; assumption|].
      constructor. unfold chain, isDescending.
      rewrite Compare_below by assumption. rewrite negb_involutive.
      reflexivity. }
    assert (Hokrun : Forall ok (take (2 + n) a))
      by (apply Forall_take; assumption).
    assert (Hokrest : Forall ok (drop (2 + n) a))
      by (apply Forall_drop; assumption).
    destruct isDescending.
    + apply descending_StronglySorted in Hrun; [|assumption].
      split; [apply Forall_rev; assumption|]. split; [assumption|].
      split; [apply rev_descending_sorted; assumption|].
      intros P ties.
      rewrite List.filter_app, rev_descending_filter by assumption.
      rewrite <- List.filter_app, take_drop. reflexivity.
    + split; [assumption|]. split; [assumption|].
      split; [apply Sorted_may_precede; assumption|].
      intros P ties. rewrite take_drop. reflexivity.
Qed.

(** The sort of the engine sorts, and keeps tied elements in their order. *)
Lemma V8_sort_spec (a : list A) :
  Forall ok a ->
  Forall ok (V8.sort comparefn a) /\
  StronglySorted may_precede (V8.sort comparefn a) /\
  forall P : A -> bool,
    (forall x y,
       ok x -> ok y -> P x = true -> P y = true -> below x y = true) ->
    List.filter P (V8.sort comparefn a) = List.filter P a.
Proof.
  intros Hok. unfold V8.sort.
  pose proof (CountAndMakeRun_spec a Hok) as Hrun.
  destruct (V8.CountAndMakeRun comparefn a) as [run rest].
  destruct Hrun as (Hokrun & Hokrest & Hs & Hf).
  destruct (fold_insert_pivot rest run Hokrest Hokrun Hs) as (Hok' & Hs' & Hf').
  split; [assumption|]. split; [assumption|].
  intros P ties. rewrite (Hf' P ties). apply Hf. exact ties.
Qed.

(** ** The stable insertion *)

Lemma sort_insert_spec (x : A) (l : list A) :
  ok x -> Forall ok l -> StronglySorted may_precede l ->
  exists l1 l2,
    l = l1 ++ l2 /\ sort_insert comparefn x l = l1 ++ x :: l2 /\
    Forall (fun y => below y x = false) l1 /\
    Forall (fun y => below y x = true) l2.
Proof.
  intros Hx Hok Hs. induction Hs as [|y t Ht IH Hy]; simpl.
  - exists [], []. repeat split; constructor.
  - apply Forall_cons in Hok as [Hoky Hok].
    rewrite Compare_below by assumption.
    destruct (below y x) eqn:E; simpl.
    + exists [], (y :: t). repeat split; [constructor|].
      constructor; [exact E|].
      rewrite Forall_forall in Hy, Hok. apply Forall_forall. intros z Hz.
      apply (below_trans z y x); auto. apply Hy. exact Hz.
    + destruct (IH Hok) as (l1 & l2 & -> & -> & H1 & H2).
      exists (y :: l1), l2. repeat split; [constructor|]; assumption.
Qed.

Lemma sort_spec (l : list A) :
  Forall ok l ->
  Forall ok (sort comparefn l) /\
  StronglySorted may_precede (sort comparefn l) /\
  forall P : A -> bool,
    (forall x y,
       ok x -> ok y -> P x = true -> P y = true -> below x y = true) ->
    List.filter P (sort comparefn l) = List.filter P l.
Proof.
  induction 1 as [|x l Hx Hok (Hok' & Hs & Hf)]; simpl.
  - repeat split; constructor.
  - destruct (sort_insert_spec x (sort comparefn l) Hx Hok' Hs)
      as (l1 & l2 & E & -> & H1 & H2).
    rewrite E in Hok', Hs, Hf. pose proof Hok' as Hok''.
    apply Forall_app in Hok'' as [Hok1 Hok2].
    split; [apply Forall_app; split; [|constructor]; assumption|].
    split.
    + apply StronglySorted_place; [assumption| |assumption].
      apply Forall_forall. intros y Hy. unfold may_precede.
      rewrite Forall_forall in H1, Hok1. apply below_total; auto.
    + intros P ties. rewrite filter_place_first by assumption.
      simpl. rewrite (Hf P ties). reflexivity.
Qed.

(** ** A stable sort has one result *)

Lemma tied_refl x : ok x -> tied x x = true.
Proof.
  intros Hx. unfold tied. rewrite below_refl by assumption. reflexivity.
Qed.

Lemma tied_ties z x y :
  ok z -> ok x -> ok y ->
  tied z x = true -> tied z y = true -> below x y = true.
Proof.
  unfold tied. intros Hz Hx Hy [_ Hxz]%andb_prop [Hzy _]%andb_prop.
  apply (below_trans x z y); assumption.
Qed.

Lemma stable_sorted_unique (l1 : list A) : forall l2,
  Forall ok l1 -> Forall ok l2 ->
  StronglySorted may_precede l1 -> StronglySorted may_precede l2 ->
  (forall z, ok z -> List.filter (tied z) l1 = List.filter (tied z) l2) ->
  l1 = l2.
Proof.
  induction l1 as [|a l1 IH]; intros l2 Hok1 Hok2 Hs1 Hs2 Hf.
  - destruct l2 as [|b l2]; [reflexivity|].
    apply Forall_cons in Hok2 as [Hb _]. specialize (Hf b Hb).
    simpl in Hf. rewrite tied_refl in Hf by assumption. discriminate.
  - apply Forall_cons in Hok1 as [Ha Hok1].
    apply StronglySorted_inv in Hs1 as [Hs1 Ha1].
    destruct l2 as [|b l2].
    { specialize (Hf a Ha). simpl in Hf.
      rewrite tied_refl in Hf by assumption. discriminate. }
    apply Forall_cons in Hok2 as [Hb Hok2].
    apply StronglySorted_inv in Hs2 as [Hs2 Hb2].
    assert (a = b) as <-.
    { pose proof (Hf a Ha) as Hfa. pose proof (Hf b Hb) as Hfb.
      simpl in Hfa, Hfb.
      rewrite tied_refl in Hfa, Hfb by assumption.
      destruct (tied a b) eqn:Eab; [congruence|].
      assert (Eba : tied b a = false)
        by (unfold tied in *; rewrite andb_comm; exact Eab).
      rewrite Eba in Hfb.
      assert (Hina : In a l2).
      { apply (filter_In (tied a)). rewrite <- Hfa. left. reflexivity. }
      assert (Hinb : In b l1).
      { apply (filter_In (tied b)). rewrite Hfb. left. reflexivity. }
      rewrite List.Forall_forall in Ha1, Hb2.
      specialize (Ha1 b Hinb). specialize (Hb2 a Hina).
      unfold may_precede, tied in *. rewrite Ha1, Hb2 in Eab. discriminate. }
    f_equal. apply IH; try assumption.
    intros z Hz. specialize (Hf z Hz). simpl in Hf.
    destruct (tied z a); congruence.
Qed.

(** With a consistent comparator the engine returns what the stable
    insertion computes. *)
Lemma V8_sort_stable (l : list A) :
  Forall ok l -> V8.sort comparefn l = sort comparefn l.
Proof.
  intros Hok.
  destruct (V8_sort_spec l Hok) as (Hok1 & Hs1 & Hf1).
  destruct (sort_spec l Hok) as (Hok2 & Hs2 & Hf2).
  apply stable_sorted_unique; try assumption.
  intros z Hz.
  rewrite Hf1, Hf2; [reflexivity|intros x y Hx Hy..];
    apply (tied_ties z); assumption.
Qed.

End EngineSort.

(** The comparator of the source is consistent on records whose ept is not
    NaN: it orders them by ept, the larger first. *)
Lemma by_ept_below (x y : Player) :
  is_nan (ept x) = false -> is_nan (ept y) = false ->
  (by_ept x y <? 0)%float = negb (ept x <=? ept y)%float.
Proof.
  intros Hx Hy. unfold by_ept.
  destruct (ept y - ept x <? 0)%float eqn:E.
  - apply Binary64.sub_ltb_0 in E.
    rewrite FloatAxioms.leb_spec. unfold SFleb.
    rewrite Binary64.SFcompare_antisym, E. reflexivity.
  - rewrite (Binary64.sub_not_neg_leb _ _ Hy Hx E). reflexivity.
Qed.

Lemma leb_total (x y : float) :
  is_nan x = false -> is_nan y = false ->
  (x <=? y)%float = false -> (y <=? x)%float = true.
Proof.
  intros Hx Hy H. destruct (y - x <? 0)%float eqn:E.
  - apply Binary64.sub_neg_leb. exact E.
  - rewrite (Binary64.sub_not_neg_leb _ _ Hy Hx E) in H. discriminate.
Qed.

Lemma V8_sort_by_ept (l : list Player) :
  Forall (fun p => is_nan (ept p) = false) l ->
  V8.sort by_ept l = sort by_ept l.
Proof.
  apply (V8_sort_stable by_ept (fun p => is_nan (ept p) = false)
           (fun x y => (ept x <=? ept y)%float)).
  - exact by_ept_below.
  - intros x y. apply leb_total.
  - intros x y z _ _ _. apply FloatOrder.leb_trans.
Qed.

(** ** Records without cells *)

(** The names under which [player_of_row] reads a row. *)
Definition field_names : list string :=
  ["GP"; "PTS"; "REB"; "AST"; "STL"; "BLK"; "TOV"; "FGM"; "FGA"; "FG3M";
   "FG3A"; "FTM"; "FTA"; "FG_PCT"; "FT_PCT"; "FG3_PCT"; "PLAYER"; "TEAM"].

(** The record of a row none of whose fields is found. *)
Definition blank_player : Player :=
  {| name := Undefined; team := Undefined;
     gp := Num 0; pts := Num 0; reb := Num 0; ast := Num 0; stl := Num 0;
     blk := Num 0; tov := Num 0;
     fgm := Num 0; fga := Num 0; fg3m := Num 0; fg3a := Num 0;
     ftm := Num 0; fta := Num 0;
     fgPct := 0; ftPct := 0; tpPct := 0;
     ppg := 0; rpg := 0; apg := 0; spg := 0; bpg := 0; topg := 0;
     ept := 0 |}.

(** All six per-game rates are 0. *)
Definition idle (p : Player) : Prop :=
  ppg p = 0%float /\ rpg p = 0%float /\ apg p = 0%float /\
  spg p = 0%float /\ bpg p = 0%float /\ topg p = 0%float.

Section Extras.

Variable StringToNumber : string -> float.

Notation "'#' v" := (ToNumber StringToNumber v) (at level 1, format "'#' v").
Abbreviation project := (player_of_row StringToNumber) (only parsing).
Abbreviation rank_table := (getSeasonStats StringToNumber) (only parsing).

Lemma getSeasonStats_of_table now hs rows later :
  rank_table now (table hs rows) later =
  Return {| players :=
              take 25 (sort by_ept
                         (map (project (index_headers hs 0 ∅)) rows));
            season := getNBASeason now;
            updatedAt := later |}.
Proof. apply getSeasonStats_with_table. Qed.

Ltac returned :=
  eexists; split; [apply getSeasonStats_of_table|cbv [players]].

Lemma index_headers_Some (hs : list string) (h : string) (n : nat) :
  index_headers hs 0 ∅ !! h = Some n ->
  hs !! n = Some h /\ forall j, n < j -> hs !! j <> Some h.
Proof.
  destruct (String.eqb_spec h "__proto__") as [->|Hh].
  { rewrite index_headers_proto, lookup_empty. discriminate. }
  destruct (last_occurrence hs h) as [Hno|(n0 & Hn0 & Hlast0)].
  - rewrite index_headers_other by assumption. rewrite lookup_empty.
    discriminate.
  - rewrite (index_headers_last hs h n0) by assumption. simpl.
    intros [= <-]. split; assumption.
Qed.

Lemma not_prototype_name (h : string) :
  h ∉ Object_prototype_names -> h <> "__proto__".
Proof.
  intros Hh ->. apply Hh. unfold Object_prototype_names.
  repeat (first [apply list_elem_of_here|apply list_elem_of_further]).
Qed.

Lemma index_headers_None (hs : list string) (h : string) :
  h ∉ hs -> index_headers hs 0 ∅ !! h = None.
Proof.
  intros Hnot. rewrite index_headers_other; [apply lookup_empty|].
  intros j Hj. apply Hnot, list_elem_of_lookup. exists j. assumption.
Qed.

(** X1: for a name that [Object.prototype] does not define, the header
    index maps the name to a position exactly when that is the last position
    at which the headers hold the name, and has no entry for it, so that the
    name reads as [undefined], exactly when the headers do not hold it. *)
Theorem header_index_lookup (hs : list string) (h : string) :
  h ∉ Object_prototype_names ->
  (forall n, index_headers hs 0 ∅ !! h = Some n <->
             hs !! n = Some h /\ forall j, n < j -> hs !! j <> Some h) /\
  (index_headers hs 0 ∅ !! h = None <-> h ∉ hs).
Proof.
  intros Hh%not_prototype_name. split.
  - intros n. split; [apply index_headers_Some|].
    intros [Hn Hlast]. rewrite (index_headers_last hs h n) by assumption.
    reflexivity.
  - split; [|apply index_headers_None].
    intros Hnone [n Hn]%list_elem_of_lookup.
    destruct (last_occurrence hs h) as [Hno|(n0 & Hn0 & Hlast0)].
    + destruct (Hno n Hn).
    + rewrite (index_headers_last hs h n0) in Hnone by assumption.
      discriminate.
Qed.

(** X2: a row has all six per-game rates 0 when the table has no GP column,
    when the row is too short to reach it, and when its GP cell is null or
    NaN, whatever its totals. *)
Theorem rates_without_games_played idx r :
  let p := project idx r in
  (idx !! "GP" = None -> idle p) /\
  (forall n, idx !! "GP" = Some n -> length r <= n -> idle p) /\
  (forall n, idx !! "GP" = Some n -> r !! n = Some Null -> idle p) /\
  (forall n g, idx !! "GP" = Some n -> r !! n = Some (Num g) ->
               is_nan g = true -> idle p).
Proof.
  assert (H : ToBoolean (nullish (get r (idx !! "GP")) (Num 0)) = false ->
              idle (project idx r)).
  { intros H. unfold idle. simpl. unfold per_game. rewrite H. repeat split. }
  intros p. subst p. split; [|split; [|split]].
  - intros Hi. apply H. rewrite Hi. reflexivity.
  - intros n Hi Hn. apply H. rewrite Hi. simpl.
    rewrite lookup_ge_None_2 by assumption. reflexivity.
  - intros n Hi Hn. apply H. rewrite Hi. simpl. rewrite Hn. reflexivity.
  - intros n g Hi Hn Hg. apply H. rewrite Hi. simpl. rewrite Hn. simpl.
    rewrite Hg, orb_true_r. reflexivity.
Qed.

(** X3: when the headers hold none of the field names, and when the row is
    empty, the record is the blank one: name and team undefined, every total,
    percentage and rate 0, and ept 0. *)
Theorem blank_record (hs : list string) (r : list value) :
  Forall (fun h => h ∉ hs) field_names \/ r = [] ->
  project (index_headers hs 0 ∅) r = blank_player.
Proof.
  intros H.
  assert (Hget : Forall (fun h => get r (index_headers hs 0 ∅ !! h) = Undefined)
                        field_names).
  { destruct H as [H| ->].
    - eapply Forall_impl; [exact H|]. intros h Hh. simpl in Hh.
      rewrite (index_headers_None hs h Hh). reflexivity.
    - apply Forall_forall. intros h _.
      destruct (index_headers hs 0 ∅ !! h); reflexivity. }
  unfold field_names in Hget.
  repeat (apply Forall_cons in Hget as [? Hget]).
  unfold player_of_row.
  repeat match goal with
         | Hc : get _ _ = Undefined |- _ => rewrite Hc; clear Hc
         end.
  reflexivity.
Qed.

(** X4: the returned players together with the records left out are the
    projected rows, rearranged: nothing is added, lost or repeated, and each
    returned player is the projection of a row of the table. *)
Theorem players_from_rows now hs rows later :
  exists st,
    rank_table now (table hs rows) later = Return st /\
    (exists rest,
       players st ++ rest ≡ₚ map (project (index_headers hs 0 ∅)) rows /\
       length rest = length rows - 25) /\
    (forall p, p ∈ players st ->
       exists r, r ∈ rows /\ p = project (index_headers hs 0 ∅) r).
Proof.
  returned.
  set (l := map (project (index_headers hs 0 ∅)) rows).
  assert (Hperm : take 25 (sort by_ept l) ++ drop 25 (sort by_ept l) ≡ₚ l)
    by (rewrite take_drop; apply sort_Permutation).
  split.
  - exists (drop 25 (sort by_ept l)). split; [exact Hperm|].
    rewrite length_drop, sort_length. unfold l. rewrite length_map. reflexivity.
  - intros p Hp.
    assert (Hin : p ∈ l).
    { rewrite <- Hperm. apply elem_of_app. left. assumption. }
    unfold l in Hin. apply list_elem_of_fmap in Hin as (r & -> & Hr).
    exists r. split; [assumption|reflexivity].
Qed.

(** The whole sorted sequence, when no ept is NaN. *)
Lemma sort_StronglySorted (l : list Player) :
  Forall (fun p => is_nan (ept p) = false) l ->
  StronglySorted (fun a b => (ept b <=? ept a)%float = true) (sort by_ept l).
Proof.
  intros Hok. apply Sorted_StronglySorted.
  - intros a b c Hab Hbc. apply (FloatOrder.leb_trans _ (ept b)); assumption.
  - apply sort_Sorted with (ok := fun p => is_nan (ept p) = false);
      [| |assumption].
    + intros x y. unfold by_ept. apply Binary64.sub_neg_leb.
    + intros x y Hx Hy. unfold by_ept.
      apply Binary64.sub_not_neg_leb; assumption.
Qed.

(** X5: when no projected record has a NaN ept, a player's ept is greater
    than or equal to the ept of every player after it, not only of the
    next. *)
Theorem ranking_pairwise_sorted now hs rows later :
  Forall (fun p => is_nan (ept p) = false)
         (map (project (index_headers hs 0 ∅)) rows) ->
  exists st,
    rank_table now (table hs rows) later = Return st /\
    forall i j p q, i < j ->
      players st !! i = Some p -> players st !! j = Some q ->
      (ept q <=? ept p)%float = true.
Proof.
  intros Hok. returned. intros i j p q Hij Hi Hj.
  apply sort_StronglySorted in Hok.
  apply lookup_take_Some in Hi as [Hi _]. apply lookup_take_Some in Hj as [Hj _].
  exact (StronglySorted_lookup _ _ Hok i j p q Hij Hi Hj).
Qed.

(** X6: when no projected record has a NaN ept, the truncation keeps the
    best: every record left out has an ept less than or equal to that of
    every returned player. *)
Theorem ranking_keeps_the_best now hs rows later :
  Forall (fun p => is_nan (ept p) = false)
         (map (project (index_headers hs 0 ∅)) rows) ->
  exists st rest,
    rank_table now (table hs rows) later = Return st /\
    players st ++ rest ≡ₚ map (project (index_headers hs 0 ∅)) rows /\
    forall p q, p ∈ players st -> q ∈ rest ->
      (ept q <=? ept p)%float = true.
Proof.
  intros Hok. eexists.
  exists (drop 25 (sort by_ept (map (project (index_headers hs 0 ∅)) rows))).
  split; [apply getSeasonStats_of_table|]. cbv [players].
  split; [rewrite take_drop; apply sort_Permutation|].
  intros p q [i Hi]%list_elem_of_lookup [j Hj]%list_elem_of_lookup.
  apply sort_StronglySorted in Hok.
  apply (StronglySorted_lookup _ _ Hok i (25 + j) p q).
  - apply lookup_lt_Some in Hi. rewrite length_take in Hi. lia.
  - rewrite lookup_take_Some in Hi. apply Hi.
  - rewrite lookup_drop in Hj. exact Hj.
Qed.


(** A cell is found by its name: with headers that do not repeat, a row reads
    as the map from each header to the cell under it. *)
Lemma cell_by_name (hs : list string) (r : list value) (h : string) :
  h <> "__proto__" ->
  NoDup hs -> length r = length hs ->
  get r (index_headers hs 0 ∅ !! h) =
  default Undefined ((list_to_map (zip hs r) : gmap string value) !! h).
Proof.
  intros Hh Hnd Hlen.
  assert (Hfst : (zip hs r).*1 = hs) by (apply fst_zip; lia).
  destruct (last_occurrence hs h) as [Hno|(n & Hn & Hlast)].
  - rewrite index_headers_other, lookup_empty by assumption.
    rewrite not_elem_of_list_to_map_1; [reflexivity|].
    rewrite Hfst. intros [j Hj]%list_elem_of_lookup. destruct (Hno j Hj).
  - rewrite (index_headers_last hs h n) by assumption. simpl.
    destruct (lookup_lt_is_Some_2 r n) as [v Hv].
    { rewrite Hlen. apply lookup_lt_Some in Hn. assumption. }
    rewrite Hv. rewrite (elem_of_list_to_map_1 _ h v); [reflexivity| |].
    + rewrite Hfst. assumption.
    + apply list_elem_of_lookup. exists n.
      apply lookup_zip_with_Some. exists h, v. auto.
Qed.

(** No field name is "__proto__". *)
Lemma field_name_not_proto (h : string) :
  h ∈ field_names -> h <> "__proto__".
Proof.
  unfold field_names. intros Hin ->.
  repeat (apply elem_of_cons in Hin as [Hin|Hin]; [discriminate Hin|]).
  apply elem_of_nil in Hin. exact Hin.
Qed.

(** The record is a function of the cells found under the field names. *)
Lemma player_of_row_cells idx r idx' r' :
  (forall h, h ∈ field_names -> get r (idx !! h) = get r' (idx' !! h)) ->
  project idx r = project idx' r'.
Proof.
  intros H.
  assert (Hall : Forall (fun h => get r (idx !! h) = get r' (idx' !! h))
                        field_names)
    by (apply Forall_forall; exact H).
  unfold field_names in Hall.
  repeat (apply Forall_cons in Hall as [? Hall]).
  unfold player_of_row.
  repeat match goal with
         | Hc : get r _ = get r' _ |- _ => rewrite Hc; clear Hc
         end.
  reflexivity.
Qed.

(** X7: the order of the columns does not matter.  When the headers do not
    repeat and every row is as long as the headers, moving the columns of the
    table, headers and cells alike, leaves the result unchanged. *)
Theorem column_order_irrelevant now later hs rows hs' rows' :
  NoDup hs ->
  Forall2 (fun r r' => length r = length hs /\ length r' = length hs' /\
                       zip hs r ≡ₚ zip hs' r') rows rows' ->
  rank_table now (table hs rows) later =
  rank_table now (table hs' rows') later.
Proof.
  intros Hnd Hrows. rewrite !getSeasonStats_of_table.
  do 2 f_equal. f_equal. f_equal.
  induction Hrows as [|r r' rows rows' (Hlen & Hlen' & Hperm) _ IH];
    [reflexivity|].
  simpl. f_equal; [|exact IH].
  apply player_of_row_cells. intros h Hh%field_name_not_proto.
  assert (Hnd' : NoDup hs').
  { assert (E : (zip hs r).*1 = hs) by (apply fst_zip; lia).
    assert (E' : (zip hs' r').*1 = hs') by (apply fst_zip; lia).
    rewrite <- E', <- Hperm, E. assumption. }
  rewrite !cell_by_name by assumption.
  rewrite (list_to_map_proper (zip hs r) (zip hs' r')); [reflexivity| |assumption].
  rewrite fst_zip by lia. assumption.
Qed.

(** X8: when all projected records have the same ept, the players are the
    first 25 rows in the order of the table. *)
Theorem tied_ranking_keeps_input_order now hs rows later (v : float) :
  Forall (fun p => (ept p =? v)%float = true)
         (map (project (index_headers hs 0 ∅)) rows) ->
  exists st,
    rank_table now (table hs rows) later = Return st /\
    players st = take 25 (map (project (index_headers hs 0 ∅)) rows).
Proof.
  intros Htied. returned. f_equal.
  assert (ties : forall x y : Player,
            (ept x =? v)%float = true -> (ept y =? v)%float = true ->
            (by_ept y x <? 0)%float = false).
  { intros x y Hx Hy. unfold by_ept.
    apply Binary64.eqb_sub_not_neg with v; assumption. }
  rewrite <- (filter_all (fun p => (ept p =? v)%float) (sort by_ept _))
    by (apply sort_Forall; exact Htied).
  rewrite (sort_filter by_ept _ ties).
  apply filter_all. exact Htied.
Qed.

(** X16: when no projected record has a NaN ept, the sort of the engine, on
    a table of fewer than 64 rows, gives the result that ECMAScript fixes:
    the players come out as the stable insertion orders them. *)
Theorem engine_sort_agrees now hs rows later :
  length rows < 64 ->
  Forall (fun p => is_nan (ept p) = false)
         (map (project (index_headers hs 0 ∅)) rows) ->
  getSeasonStats_with StringToNumber V8.sort now (table hs rows) later =
  rank_table now (table hs rows) later.
Proof.
  intros _ Hok.
  rewrite getSeasonStats_with_table, getSeasonStats_of_table.
  rewrite V8_sort_by_ept by exact Hok. reflexivity.
Qed.

End Extras.

(** ** The fetch and the server *)

(** The value of the header [name] among the headers given to
    [res.writeHead]. *)
Fixpoint header_value (name : string) (hd : list (string * string))
    : option string :=
  match hd with
  | [] => None
  | (k, v) :: t => if String.eqb k name then Some v else header_value name t
  end.

Lemma types_values ext v :
  types !! ext = Some v ->
  v = "text/html" \/ v = "text/css" \/ v = "application/javascript" \/
  v = "application/json".
Proof.
  unfold types. rewrite !lookup_insert, lookup_empty.
  repeat case_decide; intros [= <-]; auto.
Qed.

Section FetchFacts.

Variable JSON_parse : string -> option Payload.

Lemma deliver_settled f ev :
  outcome f <> Pending -> outcome (deliver JSON_parse f ev) = outcome f.
Proof.
  intros H. destruct ev; simpl; try reflexivity;
    destruct (outcome f); try reflexivity; destruct (H eq_refl).
Qed.

Lemma deliver_all_settled es : forall f,
  outcome f <> Pending ->
  outcome (fold_left (deliver JSON_parse) es f) = outcome f.
Proof.
  induction es as [|ev es IH]; intros f H; simpl; [reflexivity|].
  rewrite IH; rewrite deliver_settled by assumption; [reflexivity|assumption].
Qed.

Lemma deliver_chunks chunks : forall s,
  fold_left (deliver JSON_parse) (map OnData chunks)
            {| received := s; outcome := Pending |} =
  {| received := fold_left String.append chunks s; outcome := Pending |}.
Proof.
  induction chunks as [|c chunks IH]; intros s; simpl; [reflexivity|].
  apply IH.
Qed.

(** X9: a settled fetch stays as it is: once the promise is fulfilled or
    rejected, no later event of the transport changes it. *)
Theorem fetch_settles_once (es es' : list event) :
  fetchNBA JSON_parse es <> Pending ->
  fetchNBA JSON_parse (es ++ es') = fetchNBA JSON_parse es.
Proof.
  unfold fetchNBA. intros H. rewrite fold_left_app.
  apply deliver_all_settled. assumption.
Qed.

Lemma fetch_on_end (chunks : list string) (rest : list event) :
  fetchNBA JSON_parse (map OnData chunks ++ OnEnd :: rest) =
  match JSON_parse (fold_left String.append chunks "") with
  | Some v => Fulfilled v
  | None => Rejected (Failure "Failed to parse NBA response")
  end.
Proof.
  unfold fetchNBA. rewrite fold_left_app, deliver_chunks. simpl.
  rewrite deliver_all_settled; simpl; [reflexivity|].
  destruct (JSON_parse _); discriminate.
Qed.

Lemma fetch_on_error (chunks : list string) message (rest : list event) :
  fetchNBA JSON_parse (map OnData chunks ++ OnError message :: rest) =
  Rejected (Failure message).
Proof.
  unfold fetchNBA. rewrite fold_left_app, deliver_chunks. simpl.
  rewrite deliver_all_settled; simpl; [reflexivity|discriminate].
Qed.

Lemma fetch_on_timeout (chunks : list string) (rest : list event) :
  fetchNBA JSON_parse (map OnData chunks ++ OnTimeout :: rest) =
  Rejected (Failure "Request timed out").
Proof.
  unfold fetchNBA. rewrite fold_left_app, deliver_chunks. simpl.
  rewrite deliver_all_settled; simpl; [reflexivity|discriminate].
Qed.

(** X10: the fetch is decided by the first event that is not a chunk.  The
    end of the body fulfils it with the parse of the chunks appended in
    order of arrival, or rejects it with "Failed to parse NBA response" when
    they do not parse; an error rejects it with that error; a timeout rejects
    it with "Request timed out"; and while only chunks arrive it stays
    pending. *)
Theorem fetch_first_decides (chunks : list string) (rest : list event) :
  fetchNBA JSON_parse (map OnData chunks ++ OnEnd :: rest) =
    match JSON_parse (fold_left String.append chunks "") with
    | Some v => Fulfilled v
    | None => Rejected (Failure "Failed to parse NBA response")
    end /\
  (forall message,
     fetchNBA JSON_parse (map OnData chunks ++ OnError message :: rest) =
     Rejected (Failure message)) /\
  fetchNBA JSON_parse (map OnData chunks ++ OnTimeout :: rest) =
    Rejected (Failure "Request timed out") /\
  fetchNBA JSON_parse (map OnData chunks) = Pending.
Proof.
  split; [apply fetch_on_end|].
  split; [intros message; apply fetch_on_error|].
  split; [apply fetch_on_timeout|].
  unfold fetchNBA. rewrite deliver_chunks. reflexivity.
Qed.

End FetchFacts.

Section ServerFacts.

Variable path_extname : string -> string.
Variable path_join : string -> string -> string.
Variable dirname : string.
Variable readFile : string -> option string.

Abbreviation respond := (server path_extname path_join dirname readFile)
  (only parsing).

Lemma serveFile_cases filePath :
  let resp := serveFile path_extname readFile filePath in
  (readFile filePath = None /\ statusCode resp = 404 /\ header resp = [] /\
   sent resp = Sent "Not found") \/
  (exists data ct,
     readFile filePath = Some data /\ statusCode resp = 200 /\
     header resp = [("Content-Type", ct);
                    ("Cache-Control", "no-store, no-cache, must-revalidate");
                    ("Pragma", "no-cache")] /\
     sent resp = Sent data /\
     (ct = "text/html" \/ ct = "text/css" \/ ct = "application/javascript" \/
      ct = "application/json" \/ ct = "text/plain")).
Proof.
  unfold serveFile. destruct (readFile filePath) as [data|]; simpl.
  - right. exists data. eexists. repeat split.
    destruct (types !! path_extname filePath) as [v|] eqn:E; simpl.
    + apply types_values in E. tauto.
    + tauto.
  - left. repeat split.
Qed.

(** X11: every answer has status 200, 404 or 500.  The stats route answers
    200 with the stats or 500 with the error of the rejection, and never from
    a file; every other route answers from a file, 404 "Not found" or 200 with
    the bytes read, never 500, and whatever the stats promise is. *)
Theorem server_routes (url : string) (stats : promise Stats) (resp : Response) :
  respond url stats = Some resp ->
  (url = "/api/stats" /\
   ((exists st, stats = Fulfilled st /\ statusCode resp = 200 /\
                sent resp = JSON_stringify_stats st) \/
    (exists r, stats = Rejected r /\ statusCode resp = 500 /\
               sent resp = JSON_stringify_error r))) \/
  (url <> "/api/stats" /\
   (forall stats', respond url stats' = Some resp) /\
   ((statusCode resp = 404 /\ sent resp = Sent "Not found") \/
    (statusCode resp = 200 /\ exists data, sent resp = Sent data))).
Proof.
  unfold server. destruct (String.eqb_spec url "/api/stats") as [->|Hne].
  - intros H. left. split; [reflexivity|].
    destruct stats as [|st|r]; [discriminate| |]; injection H as <-; simpl.
    + left. exists st. auto.
    + right. exists r. auto.
  - intros H. right. split; [assumption|]. split; [intros _; exact H|].
    destruct (String.eqb url "/" || String.eqb url "/index.html");
      injection H as <-;
      match goal with
      | |- context [serveFile _ _ ?f] =>
          destruct (serveFile_cases f)
            as [(_ & -> & _ & ->)|(data & ct & _ & -> & _ & -> & _)]
      end; eauto.
Qed.

(** X12: only a 200 answer of the stats route carries
    Access-Control-Allow-Origin, and the stats route never carries
    Cache-Control; a 404 answer carries no header at all; every other answer
    carries a Content-Type, application/json on the stats route and one of
    five types for a file, and a file is always answered with the no-cache
    headers. *)
Theorem server_headers (url : string) (stats : promise Stats) (resp : Response) :
  respond url stats = Some resp ->
  (header_value "Access-Control-Allow-Origin" (header resp) =
     if String.eqb url "/api/stats" && Nat.eqb (statusCode resp) 200
     then Some "*" else None) /\
  (statusCode resp = 404 -> header resp = []) /\
  (url = "/api/stats" ->
   header_value "Content-Type" (header resp) = Some "application/json" /\
   header_value "Cache-Control" (header resp) = None) /\
  (url <> "/api/stats" -> statusCode resp = 200 ->
   header_value "Cache-Control" (header resp) =
     Some "no-store, no-cache, must-revalidate" /\
   header_value "Pragma" (header resp) = Some "no-cache" /\
   exists ct, header_value "Content-Type" (header resp) = Some ct /\
     (ct = "text/html" \/ ct = "text/css" \/ ct = "application/javascript" \/
      ct = "application/json" \/ ct = "text/plain")).
Proof.
  unfold server. destruct (String.eqb_spec url "/api/stats") as [->|Hne].
  - intros H.
    destruct stats as [|st|r]; [discriminate| |]; injection H as <-; simpl;
      repeat split; try discriminate; try congruence.
  - intros H.
    destruct (String.eqb url "/" || String.eqb url "/index.html");
      injection H as <-;
      match goal with
      | |- context [serveFile _ _ ?f] =>
          destruct (serveFile_cases f)
            as [(_ & Hs & Hh & _)|(data & ct & _ & Hs & Hh & _ & Hct)]
      end; rewrite ?Hs, ?Hh; simpl;
      (split; [reflexivity|]); (split; [try reflexivity; discriminate|]);
      (split; [intros E; destruct (Hne E)|]); intros _ E; try discriminate;
      eauto.
Qed.

End ServerFacts.

Section EndToEnd.

Variable StringToNumber : string -> float.
Variable Array_sort :
  (Player -> Player -> float) -> list Player -> list Player.
Variable JSON_parse : string -> option Payload.
Variable path_extname : string -> string.
Variable path_join : string -> string -> string.
Variable dirname : string.
Variable readFile : string -> option string.




End EndToEnd.

(** ** Worked examples of the further properties *)

(** [row_A] with a null games-played cell. *)
Definition row_A_unplayed : list value :=
  [Str "A"; Str "X"; Null; Num 20; Num 10; Num 6; Num 4; Num 2; Num 4].

(** A site of one file, /srv/index.html; on the paths below the two
    functions agree with [path.join] and [path.extname]. *)
Definition site_join (a b : string) : string := a ++ "/" ++ b.

Definition site_extname (p : string) : string :=
  if String.eqb p "/srv/index.html" then ".html" else "".

Definition site_readFile (p : string) : option string :=
  if String.eqb p "/srv/index.html" then Some "<html></html>" else None.

(** A parser that accepts nothing. *)
Definition no_parse : string -> option Payload := fun _ => None.

Lemma engine_sort_agrees_witness :
  getSeasonStats_with unread V8.sort november_2025
    (table stat_headers [row_C; row_A; row_B]) november_2025 =
  getSeasonStats unread november_2025
    (table stat_headers [row_C; row_A; row_B]) november_2025.
Proof.
  apply engine_sort_agrees; [simpl; lia|repeat constructor].
Defined.

Lemma header_index_lookup_witness :
  index_headers ["PTS"; "GP"; "PTS"] 0 ∅ !! "PTS" = Some 2 /\
  index_headers ["PTS"; "GP"; "PTS"] 0 ∅ !! "REB" = None.
Proof.
  assert (Hname : forall h, bool_decide (h ∈ Object_prototype_names) = false ->
                            h ∉ Object_prototype_names).
  { intros h Hh Hin. apply bool_decide_eq_false in Hh. exact (Hh Hin). }
  split.
  - apply (header_index_lookup ["PTS"; "GP"; "PTS"] "PTS");
      [apply Hname; reflexivity|].
    split; [reflexivity|].
    intros [|[|[|j]]] Hj; try lia. discriminate.
  - apply (header_index_lookup ["PTS"; "GP"; "PTS"] "REB");
      [apply Hname; reflexivity|].
    intros H. repeat (apply elem_of_cons in H as [H|H]; [discriminate H|]).
    apply elem_of_nil in H. exact H.
Defined.

Lemma rates_without_games_played_witness :
  idle (player_of_row unread stat_idx row_A_unplayed).
Proof.
  destruct (rates_without_games_played unread stat_idx row_A_unplayed)
    as (_ & _ & Hnull & _).
  apply (Hnull 2); reflexivity.
Defined.

Lemma blank_record_witness :
  player_of_row unread (index_headers ["RANK"; "MIN"] 0 ∅) [Num 1; Num 30]
  = blank_player.
Proof.
  apply blank_record. left. repeat constructor; compute_done.
Defined.

Lemma ranking_pairwise_sorted_witness :
  exists st,
    getSeasonStats unread november_2025
      (table stat_headers [row_C; row_A; row_B]) november_2025 = Return st /\
    forall i j p q, i < j ->
      players st !! i = Some p -> players st !! j = Some q ->
      (ept q <=? ept p)%float = true.
Proof.
  apply ranking_pairwise_sorted. repeat constructor.
Defined.

Lemma ranking_keeps_the_best_witness :
  exists st rest,
    getSeasonStats unread november_2025
      (table stat_headers [row_C; row_A; row_B]) november_2025 = Return st /\
    players st ++ rest
      ≡ₚ map (player_of_row unread (index_headers stat_headers 0 ∅))
             [row_C; row_A; row_B] /\
    forall p q, p ∈ players st -> q ∈ rest ->
      (ept q <=? ept p)%float = true.
Proof.
  apply ranking_keeps_the_best. repeat constructor.
Defined.

Lemma column_order_irrelevant_witness :
  getSeasonStats unread november_2025
    (table ["GP"; "PTS"] [[Num 2; Num 20]]) november_2025 =
  getSeasonStats unread november_2025
    (table ["PTS"; "GP"] [[Num 20; Num 2]]) november_2025.
Proof.
  apply column_order_irrelevant.
  - repeat constructor; compute_done.
  - repeat constructor.
Defined.

Lemma tied_ranking_keeps_input_order_witness :
  exists st,
    getSeasonStats unread november_2025
      (table stat_headers [row_A; row_B]) november_2025 = Return st /\
    players st =
      take 25 (map (player_of_row unread (index_headers stat_headers 0 ∅))
                   [row_A; row_B]).
Proof.
  apply (tied_ranking_keeps_input_order unread november_2025 stat_headers
           [row_A; row_B] november_2025 66%float).
  repeat constructor.
Defined.

Lemma fetch_settles_once_witness :
  fetchNBA no_parse ([OnTimeout] ++ [OnData "{}"; OnEnd]) =
  fetchNBA no_parse [OnTimeout].
Proof.
  apply fetch_settles_once. discriminate.
Defined.

Lemma server_routes_witness :
  statusCode
    (serveFile site_extname site_readFile (site_join "/srv" "index.html"))
  = 200.
Proof.
  destruct (server_routes site_extname site_join "/srv" site_readFile "/"
              Pending _ eq_refl)
    as [[Hurl _]|(_ & _ & [[H404 _]|[H200 _]])].
  - discriminate Hurl.
  - discriminate H404.
  - exact H200.
Defined.

Lemma server_headers_witness :
  header_value "Access-Control-Allow-Origin"
    (header (serveFile site_extname site_readFile
                       (site_join "/srv" "index.html"))) = None.
Proof.
  apply (server_headers site_extname site_join "/srv" site_readFile "/"
           Pending _ eq_refl).
Defined.

(** ** Cells that no field reads *)

Section UnreadCells.

Variable StringToNumber : string -> float.

(** X14: a column whose header name occurs again further right is never
    read: whatever stands in its cell, the record of the row is the same. *)
Theorem shadowed_column_ignored (hs : list string) (h : string) (i j : nat)
    (r : list value) (v : value) :
  hs !! i = Some h -> i < j -> hs !! j = Some h ->
  player_of_row StringToNumber (index_headers hs 0 ∅) (<[i := v]> r) =
  player_of_row StringToNumber (index_headers hs 0 ∅) r.
Proof.
  intros Hi Hij Hj. apply player_of_row_cells. intros h' _.
  destruct (index_headers hs 0 ∅ !! h') as [n|] eqn:E; [|reflexivity].
  apply index_headers_Some in E as [Hn Hlast]. simpl.
  rewrite list_lookup_insert_ne; [reflexivity|].
  intros <-. assert (h' = h) as -> by congruence.
  destruct (Hlast j Hij Hj).
Qed.

(** X15: cells beyond the last header are never read: a row at least as long
    as the headers gives the same record with any cells appended. *)
Theorem surplus_cells_ignored (hs : list string) (r extra : list value) :
  length hs <= length r ->
  player_of_row StringToNumber (index_headers hs 0 ∅) (r ++ extra) =
  player_of_row StringToNumber (index_headers hs 0 ∅) r.
Proof.
  intros Hlen. apply player_of_row_cells. intros h _.
  destruct (index_headers hs 0 ∅ !! h) as [n|] eqn:E; [|reflexivity].
  apply index_headers_Some in E as [Hn _]. simpl.
  apply lookup_lt_Some in Hn.
  rewrite lookup_app_l by lia. reflexivity.
Qed.

End UnreadCells.

Lemma shadowed_column_ignored_witness :
  player_of_row unread (index_headers ["PTS"; "GP"; "PTS"] 0 ∅)
                (<[0 := Num 1000]> [Num 7; Num 1; Num 9]) =
  player_of_row unread (index_headers ["PTS"; "GP"; "PTS"] 0 ∅)
                [Num 7; Num 1; Num 9].
Proof.
  apply (shadowed_column_ignored unread ["PTS"; "GP"; "PTS"] "PTS" 0 2);
    [reflexivity|lia|reflexivity].
Defined.

Lemma surplus_cells_ignored_witness :
  player_of_row unread (index_headers ["GP"; "PTS"] 0 ∅)
                ([Num 2; Num 20] ++ [Num 99]) =
  player_of_row unread (index_headers ["GP"; "PTS"] 0 ∅) [Num 2; Num 20].
Proof.
  apply surplus_cells_ignored. simpl. lia.
Defined.
